(** * Inverted index with permuterm wildcards: a shallow embedding

    The development follows the two Python programs
    [assignment_1/assignment_1.py] (plain boolean AND retrieval) and
    [assignment_2/assignment_2.py] (the same index extended with a permuterm
    index for single-wildcard terms).

    Modelling conventions.
    - A Python [str] is a list of characters ([str]); slices [s[i:]] and
      [s[:i]] are [drop i s] and [take i s].
    - A Python [dict] is a [gmap], a Python [set] is a [gset].
    - [None] as the empty postings chain is [option Posting].
    - A raised exception ([KeyError] of a subscript on a dict, [IndexError]
      of a subscript on a list) is the [Raise] outcome of [result].
    - The generator [postings_list_iterator] is consumed to exhaustion by
      each of its callers, so it is modelled by the list of values it yields.
    - [str.lower] and [str.isalnum] are built-ins of the interpreter; the
      methods that call them take them as parameters ([lower], [isalnum]). *)

From Stdlib Require Import Ascii String.
From stdpp Require Import gmap strings list fin_maps sorting.

Abbreviation str := (list ascii).

(** String literals of the source, written with [String] notation. *)
Definition s (x : string) : str := list_ascii_of_string x.

Definition star : ascii := "*"%char.
Definition dollar : ascii := "$"%char.

(** ** Exceptions *)

Inductive exn := KeyError | IndexError.

Inductive result (A : Type) :=
  | Ok (a : A)
  | Raise (e : exn).
Arguments Ok {A} a.
Arguments Raise {A} e.

Definition bind {A B} (r : result A) (k : A → result B) : result B :=
  match r with
  | Ok a => k a
  | Raise e => Raise e
  end.

Notation "'let!' x ':=' r 'in' k" := (bind r (λ x, k))
  (at level 10, x name, r at level 100, k at level 200, only parsing).

(** [d[k]] on a dict: the value, or [KeyError]. *)
Definition subscript `{Countable K} {V} (d : gmap K V) (k : K) : result V :=
  match d !! k with
  | Some v => Ok v
  | None => Raise KeyError
  end.

(** A loop [for x in xs: st = body(st, x)] whose body may raise. *)
Fixpoint for_each {S X} (body : S → X → result S) (xs : list X) (st : S)
  : result S :=
  match xs with
  | [] => Ok st
  | x :: xs' => let! st' := body st x in for_each body xs' st'
  end.

(** ** The order of Python strings

    [a < b] on [str] compares code points lexicographically; a proper prefix
    is smaller. *)

Fixpoint str_ltb (a b : str) : bool :=
  match a, b with
  | _, [] => false
  | [], _ :: _ => true
  | x :: a', y :: b' =>
      if decide (x = y) then str_ltb a' b'
      else bool_decide (nat_of_ascii x < nat_of_ascii y)
  end.

Definition str_lt (a b : str) : Prop := str_ltb a b = true.
Definition str_le (a b : str) : Prop := str_ltb b a = false.

Global Instance str_lt_dec : RelDecision str_lt.
Proof. intros a b. unfold str_lt. apply _. Defined.
Global Instance str_le_dec : RelDecision str_le.
Proof. intros a b. unfold str_le. apply _. Defined.

(** ** Postings (both files, lines 7-10) *)

#[warnings="-register-all"]
Inductive Posting := mkPosting {
  document_id : str;
  next_posting : option Posting
}.

(** The document IDs of the nodes of a chain, head first. *)
Fixpoint posting_ids (p : Posting) : list str :=
  match p with
  | mkPosting d nxt =>
      d :: match nxt with
           | None => []
           | Some q => posting_ids q
           end
  end.

Definition chain_ids (head : option Posting) : list str :=
  match head with
  | None => []
  | Some p => posting_ids p
  end.

(** The number of [Posting] nodes reachable from a head. *)
Definition chain_length (head : option Posting) : nat :=
  length (chain_ids head).

(** ** [postings_list_iterator] (assignment 1 lines 120-127, assignment 2
    lines 196-203)

    [iterate current seen_ids] is the [while current:] loop: the values
    yielded from [current] on when [seen_ids] have been yielded already. *)
Fixpoint iterate_posting (current : Posting) (seen_ids : gset str) : list str :=
  match current with
  | mkPosting d nxt =>
      if decide (d ∈ seen_ids) then
        match nxt with
        | None => []
        | Some q => iterate_posting q seen_ids
        end
      else
        d :: match nxt with
             | None => []
             | Some q => iterate_posting q ({[d]} ∪ seen_ids)
             end
  end.

Definition iterate (current : option Posting) (seen_ids : gset str) : list str :=
  match current with
  | None => []
  | Some p => iterate_posting p seen_ids
  end.

Definition postings_list_iterator (head : option Posting) : list str :=
  iterate head ∅.

(** ** [intersect] (assignment 1 lines 101-117, assignment 2 lines 176-193)

    [doc_id1] and [doc_id2] are the heads of the two arguments and the two
    iterators hold the tails; the loop stops as soon as either [next] gave
    [None]. *)
Fixpoint intersect (list1 list2 : list str) : list str :=
  let fix advance2 (list2 : list str) : list str :=
    match list1, list2 with
    | doc_id1 :: rest1, doc_id2 :: rest2 =>
        if decide (doc_id1 = doc_id2) then doc_id1 :: intersect rest1 rest2
        else if str_ltb doc_id1 doc_id2 then intersect rest1 list2
        else advance2 rest2
    | _, _ => []
    end
  in advance2 list2.

(** ** The index object

    [dictionary] maps a term to the tuple [(term, size, pointer)];
    [postings_lists] maps a pointer to the head of a chain; the class of
    assignment 1 has no [permuterm_index] attribute, and none of its methods
    touches the field. *)

Record TermData := mkTermData {
  td_term : str;
  td_size : nat;
  td_pointer : nat
}.

Record InvertedIndex := mkIndex {
  dictionary : gmap str TermData;
  postings_lists : gmap nat (option Posting);
  posting_id_counter : nat;
  permuterm_index : gmap str (gset str)
}.

(** [__init__] *)
Definition new_index : InvertedIndex :=
  mkIndex ∅ ∅ 0 ∅.

(** The body of [for term in tokens] that both files have verbatim
    (assignment 1 lines 56-75, assignment 2 lines 86-105), in its two steps. *)

(** [if term not in self.dictionary: ...] (assignment 1 lines 56-61,
    assignment 2 lines 86-91): an unseen term gets a fresh pointer, an empty
    chain and the size 0. *)
Definition ensure_term (self : InvertedIndex) (term : str) : InvertedIndex :=
  match dictionary self !! term with
  | Some _ => self
  | None =>
      let pointer := posting_id_counter self in
      mkIndex (<[term := mkTermData term 0 pointer]> (dictionary self))
              (<[pointer := None]> (postings_lists self))
              (posting_id_counter self + 1)
              (permuterm_index self)
  end.

(** Assignment 1 lines 64-75, assignment 2 lines 94-105: push [tweet_id] in
    front of the chain of [term] unless it is the document of the head. *)
Definition append_document (self : InvertedIndex) (term tweet_id : str)
  : result InvertedIndex :=
  let! term_data := subscript (dictionary self) term in
  let pointer := td_pointer term_data in
  let! current_posting := subscript (postings_lists self) pointer in
  let push :=
    match current_posting with
    | None => true
    | Some p => bool_decide (document_id p ≠ tweet_id)
    end in
  if push then
    let new_posting := mkPosting tweet_id current_posting in
    Ok (mkIndex
          (<[term := mkTermData term (td_size term_data + 1) pointer]>
             (dictionary self))
          (<[pointer := Some new_posting]> (postings_lists self))
          (posting_id_counter self)
          (permuterm_index self))
  else Ok self.

Definition add_posting (self : InvertedIndex) (term tweet_id : str)
  : result InvertedIndex :=
  append_document (ensure_term self term) term tweet_id.

(** [sorted(...)] of a collection of distinct strings. *)
Definition sorted (l : list str) : list str := merge_sort str_le l.

(** ASCII instances of the two character built-ins, for running the model
    on ASCII text. *)
Definition ascii_isalnum (c : ascii) : bool :=
  let n := nat_of_ascii c in
  bool_decide (48 ≤ n ≤ 57) || bool_decide (65 ≤ n ≤ 90)
  || bool_decide (97 ≤ n ≤ 122).

Definition ascii_lower (term : str) : str :=
  (λ c, let n := nat_of_ascii c in
        if bool_decide (65 ≤ n ≤ 90) then ascii_of_nat (n + 32) else c)
  <$> term.

(** The loop that ends [query] in both files: [result = postings_lists[0]],
    then one [intersect] per remaining list.  [break_on_empty] is the
    [if not result: break] that only assignment 2 has. *)
Fixpoint intersect_loop (break_on_empty : bool) (result : list str)
    (rest : list (list str)) : list str :=
  match rest with
  | [] => result
  | postings :: rest' =>
      let result := intersect result postings in
      match result with
      | [] => if break_on_empty then [] else intersect_loop break_on_empty [] rest'
      | _ :: _ => intersect_loop break_on_empty result rest'
      end
  end.

(** [postings_lists[0]] followed by the loop. *)
Definition intersect_all (break_on_empty : bool) (postings_lists : list (list str))
  : result (list str) :=
  match postings_lists with
  | [] => Raise IndexError
  | first :: rest => Ok (intersect_loop break_on_empty first rest)
  end.

(** * Assignment 1 *)
Module Assignment1.
Section WithBuiltins.
Variable lower : str → str.
Variable isalnum : ascii → bool.

(** lines 30-33 *)
Definition normalize (term : str) : str :=
  let term := lower term in
  filter (λ char, isalnum char = true) term.

(** lines 52-75 for one row: [tweet_id] is [row[1]] and [words] is
    [tweet_text.split()]. *)
Definition index_row (self : InvertedIndex) (row : str * list str)
  : result InvertedIndex :=
  let '(tweet_id, words) := row in
  let tokens := normalize <$> words in
  for_each (λ self term, add_posting self term tweet_id) tokens self.

(** lines 37-75, over the rows that have at least five fields. *)
Definition index (self : InvertedIndex) (rows : list (str * list str))
  : result InvertedIndex :=
  for_each index_row rows self.

(** What a call of [query] leaves behind: the lines printed and the value
    returned or the exception raised. *)
Record outcome := mkOutcome {
  printed : list str;
  returned : result (list str)
}.

(** lines 85-91: [inl term] is the [print] and [return []] for a missing
    [term]. *)
Fixpoint gather (self : InvertedIndex) (normalized_terms : list str)
    (postings_lists_acc : list (list str))
  : result (str + list (list str)) :=
  match normalized_terms with
  | [] => Ok (inr postings_lists_acc)
  | term :: rest =>
      match dictionary self !! term with
      | None => Ok (inl term)
      | Some term_data =>
          let! head := subscript (postings_lists self) (td_pointer term_data) in
          gather self rest
            (postings_lists_acc ++ [sorted (postings_list_iterator head)])
      end
  end.

(** lines 79-98 *)
Definition query (self : InvertedIndex) (terms : list str) : outcome :=
  let normalized_terms := normalize <$> terms in
  match gather self normalized_terms [] with
  | Raise e => mkOutcome [] (Raise e)
  | Ok (inl term) =>
      mkOutcome [s "Term '" ++ term ++ s "' not found in the index."] (Ok [])
  | Ok (inr postings_lists) =>
      mkOutcome [] (intersect_all false postings_lists)
  end.
End WithBuiltins.
End Assignment1.

(** * Assignment 2 *)
Module Assignment2.
Section WithBuiltins.
Variable lower : str → str.
Variable isalnum : ascii → bool.

(** lines 34-41 *)
Definition normalize (term : str) (keep_wildcards : bool) : str :=
  let term := lower term in
  if keep_wildcards then
    filter (λ char, isalnum char = true ∨ char = star) term
  else
    filter (λ char, isalnum char = true) term.

(** lines 45-52 *)
Definition generate_permuterms (term : str) : list str :=
  let term := term ++ [dollar] in
  (λ i, drop i term ++ take i term) <$> seq 0 (length term).

(** lines 79-84: one turn of the loop over [permuterms]. *)
Definition register_permuterm (term : str)
    (permuterm_index : gmap str (gset str)) (permuterm : str)
  : gmap str (gset str) :=
  match permuterm_index !! permuterm with
  | Some terms => <[permuterm := terms ∪ {[term]}]> permuterm_index
  | None => <[permuterm := {[term]}]> permuterm_index
  end.

(** lines 75-105: the body of [for term in tokens]. *)
Definition index_term (tweet_id : str) (self : InvertedIndex) (term : str)
  : result InvertedIndex :=
  match term with
  | [] => Ok self
  | _ :: _ =>
      let permuterms := generate_permuterms term in
      let self :=
        mkIndex (dictionary self) (postings_lists self)
                (posting_id_counter self)
                (foldl (register_permuterm term) (permuterm_index self)
                       permuterms) in
      add_posting self term tweet_id
  end.

(** lines 71-105 for one row: [tweet_id] is [row[1]] and [words] is
    [tweet_text.split()]. *)
Definition index_row (self : InvertedIndex) (row : str * list str)
  : result InvertedIndex :=
  let '(tweet_id, words) := row in
  let tokens := (λ token, normalize token false) <$> words in
  for_each (index_term tweet_id) tokens self.

(** lines 56-105, over the rows that have at least five fields. *)
Definition index (self : InvertedIndex) (rows : list (str * list str))
  : result InvertedIndex :=
  for_each index_row rows self.

(** [term.find('*')]: [None] stands for [-1]. *)
Fixpoint find_star (term : str) : option nat :=
  match term with
  | [] => None
  | c :: rest => if decide (c = star) then Some 0 else S <$> find_star rest
  end.

(** [rotated.rstrip('*')] *)
Fixpoint rstrip_star (x : str) : str :=
  match x with
  | [] => []
  | c :: rest =>
      match rstrip_star rest with
      | [] => if decide (c = star) then [] else [c]
      | kept => c :: kept
      end
  end.

(** lines 108-125.  The value returned is a list without duplicates whose
    order is that of a Python set; both callers only test it for emptiness
    and iterate over it, so the model returns the set. *)
Definition expand_wildcard (self : InvertedIndex) (term : str) : gset str :=
  let term_with_dollar := term ++ [dollar] in
  match find_star term with
  | None => {[term]}
  | Some index_of_star =>
      let rotated := drop (index_of_star + 1) term_with_dollar
                     ++ take (index_of_star + 1) term_with_dollar in
      let search := rstrip_star rotated in
      map_fold (λ permuterm terms matching_terms,
                  if decide (search `prefix_of` permuterm)
                  then matching_terms ∪ terms else matching_terms)
               ∅ (permuterm_index self)
  end.

(** lines 135-146: [None] is the [return []] of an empty expansion. *)
Fixpoint expand_all (self : InvertedIndex) (normalized_terms : list str)
    (expanded_terms_list : list (gset str)) : option (list (gset str)) :=
  match normalized_terms with
  | [] => Some expanded_terms_list
  | term :: rest =>
      if decide (star ∈ term) then
        let expanded_terms := expand_wildcard self term in
        if decide (expanded_terms = ∅) then None
        else expand_all self rest (expanded_terms_list ++ [expanded_terms])
      else expand_all self rest (expanded_terms_list ++ [{[term]}])
  end.

(** lines 151-159: the union of the postings of one group of terms. *)
Definition union_postings (self : InvertedIndex) (terms : gset str)
  : result (gset str) :=
  for_each
    (λ term_postings term,
       match dictionary self !! term with
       | None => Ok term_postings
       | Some term_data =>
           let! head := subscript (postings_lists self) (td_pointer term_data) in
           Ok (term_postings ∪ list_to_set (postings_list_iterator head))
       end)
    (elements terms) ∅.

(** lines 149-163: [None] is the [return []] of a group without postings. *)
Fixpoint gather (self : InvertedIndex) (expanded_terms_list : list (gset str))
    (postings_lists_acc : list (list str))
  : result (option (list (list str))) :=
  match expanded_terms_list with
  | [] => Ok (Some postings_lists_acc)
  | terms :: rest =>
      let! term_postings := union_postings self terms in
      if decide (term_postings = ∅) then Ok None
      else gather self rest
             (postings_lists_acc ++ [sorted (elements term_postings)])
  end.

(** lines 129-173 *)
Definition query (self : InvertedIndex) (terms : list str)
  : result (list str) :=
  let normalized_terms := (λ term, normalize term true) <$> terms in
  match expand_all self normalized_terms [] with
  | None => Ok []
  | Some expanded_terms_list =>
      let! gathered := gather self expanded_terms_list [] in
      match gathered with
      | None => Ok []
      | Some postings_lists => intersect_all true postings_lists
      end
  end.
End WithBuiltins.
End Assignment2.

(** ** Vocabulary of the statements *)

(** Induction along a chain. *)
Fixpoint Posting_chain_ind (P : Posting → Prop)
    (Hlast : ∀ d, P (mkPosting d None))
    (Hnext : ∀ d q, P q → P (mkPosting d (Some q)))
    (p : Posting) : P p :=
  match p with
  | mkPosting d None => Hlast d
  | mkPosting d (Some q) => Hnext d q (Posting_chain_ind P Hlast Hnext q)
  end.

(** The distinct elements of a list, each at the place of its first
    occurrence. *)
Fixpoint first_occurrences (l : list str) : list str :=
  match l with
  | [] => []
  | x :: l' => x :: filter (.≠ x) (first_occurrences l')
  end.

(** The position of the first occurrence of [d] in [l]. *)
Fixpoint first_index (d : str) (l : list str) : option nat :=
  match l with
  | [] => None
  | x :: l' => if decide (x = d) then Some 0 else S <$> first_index d l'
  end.

(** No two neighbours of a list are equal. *)
Fixpoint no_adjacent_duplicates (l : list str) : Prop :=
  match l with
  | x :: (y :: _) as l' => x ≠ y ∧ no_adjacent_duplicates l'
  | _ => True
  end.


(** The counter of every dictionary entry is the number of nodes of the
    chain its pointer leads to, and no two neighbours of that chain carry the
    same document. *)
Definition counters_exact (self : InvertedIndex) : Prop :=
  ∀ term term_data,
    dictionary self !! term = Some term_data →
    ∃ head,
      postings_lists self !! td_pointer term_data = Some head
      ∧ td_size term_data = chain_length head
      ∧ no_adjacent_duplicates (chain_ids head).

(** Pointers are below the counter and belong to one term each. *)
Definition pointers_fresh (self : InvertedIndex) : Prop :=
  ∀ term term_data,
    dictionary self !! term = Some term_data →
    td_pointer term_data < posting_id_counter self
    ∧ ∀ term' term_data',
        dictionary self !! term' = Some term_data' →
        td_pointer term_data' = td_pointer term_data → term' = term.

(** The condition under which the source pushes a node: the chain is empty
    or the document of its head is not [tweet_id]. *)
Definition head_differs (head : option Posting) (tweet_id : str) : Prop :=
  head = None ∨ ∃ p, head = Some p ∧ document_id p ≠ tweet_id.

(** [term] is in the set that the permuterm index holds for the key
    [permuterm]. *)
Definition registered (permuterm_index : gmap str (gset str))
    (permuterm term : str) : Prop :=
  ∃ terms, permuterm_index !! permuterm = Some terms ∧ term ∈ terms.

(** The permuterm index holds, for every term of the dictionary, exactly its
    rotations. *)
Definition permuterms_registered (self : InvertedIndex) : Prop :=
  ∀ permuterm term,
    registered (permuterm_index self) permuterm term ↔
    term ∈ dom (dictionary self)
    ∧ permuterm ∈ Assignment2.generate_permuterms term.

(** Every term of the dictionary is a non-empty string of alphanumeric
    characters. *)
Definition terms_normal (isalnum : ascii → bool) (self : InvertedIndex) : Prop :=
  ∀ term, term ∈ dom (dictionary self) →
    term ≠ [] ∧ Forall (λ char, isalnum char = true) term.

(** What holds of every index that assignment 2 builds. *)
Definition built (isalnum : ascii → bool) (self : InvertedIndex) : Prop :=
  counters_exact self ∧ pointers_fresh self
  ∧ permuterms_registered self ∧ terms_normal isalnum self.

(** ** A small corpus

    The three documents of the end-to-end example, as the rows that [index]
    receives, with the singular [effect] added to the second one. *)
Definition example_rows : list (str * list str) :=
  [ (s "doc1", s <$> ["Side"; "effects"; "of"; "malaria"; "vaccines"]%string);
    (s "doc2", s <$> ["Malaria"; "vaccine"; "side"; "effects"; "effect!"]%string);
    (s "doc3", s <$> ["No"; "relation"; "here"]%string) ].

Definition example_index1 : InvertedIndex :=
  match Assignment1.index ascii_lower ascii_isalnum new_index example_rows with
  | Ok self => self
  | Raise _ => new_index
  end.

Definition example_index2 : InvertedIndex :=
  match Assignment2.index ascii_lower ascii_isalnum new_index example_rows with
  | Ok self => self
  | Raise _ => new_index
  end.

(** ** Vocabulary for the contents of the index *)

(** The chain of a term as a list of document IDs, head first; empty when
    the term has no entry. *)
Definition postings_of (self : InvertedIndex) (term : str) : list str :=
  match dictionary self !! term with
  | Some term_data =>
      match postings_lists self !! td_pointer term_data with
      | Some head => chain_ids head
      | None => []
      end
  | None => []
  end.

(** What one insertion makes of a chain: the document goes in front unless
    it is in front already. *)
Definition push_document (chain : list str) (tweet_id : str) : list str :=
  match chain with
  | [] => [tweet_id]
  | d :: _ => if decide (d = tweet_id) then chain else tweet_id :: chain
  end.

(** The chain that a sequence of insertions leaves, oldest insertion first. *)
Definition chain_after (tweet_ids : list str) : list str :=
  foldl push_document [] tweet_ids.

(** The pair that the loop over the tokens of a row inserts for one token;
    assignment 2 skips the empty token ([skip_empty]). *)
Definition token_insertion (skip_empty : bool) (tweet_id term : str)
  : list (str * str) :=
  match term with
  | [] => if skip_empty then [] else [([], tweet_id)]
  | _ :: _ => [(term, tweet_id)]
  end.

(** The (term, document) pairs that [index] inserts for [rows], in order. *)
Definition insertions (normalize : str → str) (skip_empty : bool)
    (rows : list (str * list str)) : list (str * str) :=
  rows ≫= λ row, (normalize <$> row.2) ≫= token_insertion skip_empty row.1.

(** The documents inserted for one term, in order. *)
Definition inserted_ids (events : list (str * str)) (term : str) : list str :=
  (filter (λ event, event.1 = term) events).*2.

(** Pointers are the numbers below the counter, one per term, and the first
    component of an entry is its key. *)
Definition pointers_dense (self : InvertedIndex) : Prop :=
  size (dictionary self) = posting_id_counter self
  ∧ (∀ pointer, is_Some (postings_lists self !! pointer)
                ↔ pointer < posting_id_counter self)
  ∧ ∀ term term_data,
      dictionary self !! term = Some term_data → td_term term_data = term.

(** The index holds what the insertions [events] put into it. *)
Definition tracks (events : list (str * str)) (self : InvertedIndex) : Prop :=
  counters_exact self ∧ pointers_fresh self ∧ pointers_dense self
  ∧ (∀ term, postings_of self term = chain_after (inserted_ids events term))
  ∧ ∀ term, term ∈ dom (dictionary self) ↔ term ∈ events.*1.

(** The candidate terms of a normalized query term (assignment 2 lines
    137-146). *)
Definition candidate_terms (self : InvertedIndex) (term : str) : gset str :=
  if decide (star ∈ term) then Assignment2.expand_wildcard self term
  else {[term]}.

(** The index [self] holds the rows [rows]: each chain is what the
    insertions for its term leave, a document is on the chain of a term
    exactly when one of its words normalizes to the term, and the dictionary
    has the terms that occur. *)
Definition indexes (normalize : str → str) (skip_empty : bool)
    (rows : list (str * list str)) (self : InvertedIndex) : Prop :=
  (∀ term,
     postings_of self term
     = chain_after (inserted_ids (insertions normalize skip_empty rows) term))
  ∧ (∀ term tweet_id,
       tweet_id ∈ postings_of self term ↔
       (skip_empty = true → term ≠ [])
       ∧ ∃ words word,
           (tweet_id, words) ∈ rows ∧ word ∈ words ∧ normalize word = term)
  ∧ (∀ term,
       term ∈ dom (dictionary self) ↔
       (skip_empty = true → term ≠ [])
       ∧ ∃ tweet_id words word,
           (tweet_id, words) ∈ rows ∧ word ∈ words ∧ normalize word = term).

(** The index [after] extends the index [before]: every chain of [before]
    is the tail end of the chain of the same term, and every entry keeps its
    pointer and does not lose count. *)
Definition grows (before after : InvertedIndex) : Prop :=
  ∀ term,
    postings_of before term `suffix_of` postings_of after term
    ∧ ∀ term_data,
        dictionary before !! term = Some term_data →
        ∃ term_data',
          dictionary after !! term = Some term_data'
          ∧ td_pointer term_data' = td_pointer term_data
          ∧ td_size term_data ≤ td_size term_data'.

(** * Properties *)

(** ** The string order is a strict total order *)

Lemma nat_of_ascii_inj x y : nat_of_ascii x = nat_of_ascii y → x = y.
Proof.
  intros E. rewrite <- (ascii_nat_embedding x), <- (ascii_nat_embedding y).
  by rewrite E.
Qed.

Lemma str_ltb_irrefl a : str_ltb a a = false.
Proof. induction a as [|x a IH]; simpl; [done|]. by rewrite decide_True. Qed.

Lemma str_ltb_trans a b c :
  str_ltb a b = true → str_ltb b c = true → str_ltb a c = true.
Proof.
  revert b c. induction a as [|x a IH]; intros [|y b] [|z c]; simpl; try done.
  repeat case_decide; subst; try done; eauto;
    rewrite ?bool_decide_eq_true; try lia.
Qed.

Lemma str_ltb_asym a b : str_ltb a b = true → str_ltb b a = false.
Proof.
  intros H. destruct (str_ltb b a) eqn:E; [|done].
  pose proof (str_ltb_trans _ _ _ H E) as F. by rewrite str_ltb_irrefl in F.
Qed.

Lemma str_ltb_total a b : str_ltb a b = false → str_ltb b a = false → a = b.
Proof.
  revert b. induction a as [|x a IH]; intros [|y b]; simpl; try done.
  destruct (decide (x = y)) as [->|Hne].
  - rewrite decide_True by done. intros ??. f_equal. eauto.
  - rewrite decide_False by done. rewrite !bool_decide_eq_false. intros ??.
    exfalso. apply Hne, nat_of_ascii_inj. lia.
Qed.

Global Instance str_lt_strict : StrictOrder str_lt.
Proof.
  split.
  - intros a. unfold complement, str_lt. by rewrite str_ltb_irrefl.
  - intros a b c. apply str_ltb_trans.
Qed.

Global Instance str_le_trans : Transitive str_le.
Proof.
  intros a b c. unfold str_le. intros Hab Hbc.
  destruct (str_ltb c a) eqn:E; [|done].
  destruct (str_ltb c b) eqn:F.
  - congruence.
  - destruct (str_ltb b c) eqn:G.
    + pose proof (str_ltb_trans _ _ _ G E). congruence.
    + rewrite (str_ltb_total _ _ G F) in Hab. congruence.
Qed.

Global Instance str_le_total : Total str_le.
Proof.
  intros a b. unfold str_le.
  destruct (str_ltb b a) eqn:E; [right|by left]. by apply str_ltb_asym.
Qed.

Lemma str_le_lt_or_eq a b : str_le a b → str_lt a b ∨ a = b.
Proof.
  unfold str_le, str_lt. intros H.
  destruct (str_ltb a b) eqn:E; [by left|right]. by apply str_ltb_total.
Qed.

(** ** [intersect] *)

Lemma intersect_nil_l list2 : intersect [] list2 = [].
Proof. by destruct list2. Qed.

Lemma intersect_nil_r list1 : intersect list1 [] = [].
Proof. by destruct list1. Qed.

Lemma intersect_cons x rest1 y rest2 :
  intersect (x :: rest1) (y :: rest2) =
    if decide (x = y) then x :: intersect rest1 rest2
    else if str_ltb x y then intersect rest1 (y :: rest2)
    else intersect (x :: rest1) rest2.
Proof. done. Qed.

Lemma filter_ext_elem {A} (P Q : A → Prop) `{!∀ x, Decision (P x)}
    `{!∀ x, Decision (Q x)} (l : list A) :
  (∀ x, x ∈ l → P x ↔ Q x) → filter P l = filter Q l.
Proof.
  induction l as [|a l IH]; intros Hext; [done|].
  rewrite !filter_cons.
  rewrite IH by (intros; apply Hext; by right).
  apply decide_ext, Hext. by left.
Qed.

Lemma StronglySorted_lt_not_elem x l :
  StronglySorted str_lt (x :: l) → x ∉ l.
Proof.
  intros [Hx _]%StronglySorted_cons Hin.
  rewrite Forall_forall in Hx. by apply (irreflexivity str_lt x), Hx.
Qed.

Lemma StronglySorted_lt_NoDup l : StronglySorted str_lt l → NoDup l.
Proof.
  induction l as [|x l IH]; intros H; constructor.
  - by apply StronglySorted_lt_not_elem.
  - apply IH. by apply StronglySorted_cons in H as [_ ?].
Qed.

Lemma filter_none {A} (P : A → Prop) `{!∀ x, Decision (P x)} (l : list A) :
  (∀ x, x ∈ l → ¬ P x) → filter P l = [].
Proof.
  induction l as [|a l IH]; intros Hno; [done|].
  rewrite filter_cons_False by (apply Hno; by left).
  apply IH. intros; apply Hno; by right.
Qed.

Lemma intersect_filter list1 list2 :
  StronglySorted str_lt list1 → StronglySorted str_lt list2 →
  intersect list1 list2 = filter (.∈ list2) list1.
Proof.
  intros H1. revert list2.
  induction list1 as [|x rest1 IH1]; intros list2 H2;
    [by rewrite intersect_nil_l|].
  apply StronglySorted_cons in H1 as Hx. destruct Hx as [Hx Hr1].
  rewrite Forall_forall in Hx.
  induction list2 as [|y rest2 IH2].
  { rewrite intersect_nil_r. symmetry. apply filter_none.
    intros z _. apply not_elem_of_nil. }
  apply StronglySorted_cons in H2 as Hy. destruct Hy as [Hy Hr2].
  rewrite Forall_forall in Hy.
  rewrite intersect_cons. destruct (decide (x = y)) as [->|Hne].
  - rewrite filter_cons_True by (by left). f_equal.
    rewrite IH1 by done. apply filter_ext_elem. intros z Hz.
    rewrite elem_of_cons. split; [by right|]. intros [->|?]; [|done].
    by destruct (irreflexivity str_lt y (Hx _ Hz)).
  - destruct (str_ltb x y) eqn:Hlt.
    + rewrite filter_cons_False; [by apply IH1|].
      intros [->|Hin]%elem_of_cons; [done|].
      apply (irreflexivity str_lt x). etrans; [exact Hlt|by apply Hy].
    + rewrite IH2 by done. apply filter_ext_elem. intros z Hz.
      rewrite elem_of_cons. split; [by right|]. intros [->|?]; [|done].
      exfalso. apply elem_of_cons in Hz as [->|Hz]; [done|].
      specialize (Hx _ Hz). unfold str_lt in Hx.
      apply str_ltb_asym in Hx.
      destruct (str_ltb y x) eqn:Hyx; [|by apply Hne, str_ltb_total].
      congruence.
Qed.

Lemma StronglySorted_filter {A} (R : relation A) (P : A → Prop)
    `{!∀ x, Decision (P x)} (l : list A) :
  StronglySorted R l → StronglySorted R (filter P l).
Proof.
  induction 1 as [|x l Hl IH Hx]; [constructor|].
  rewrite filter_cons. case_decide; [|done].
  constructor; [done|]. rewrite Forall_forall in *.
  intros y [_ ?]%list_elem_of_filter. auto.
Qed.

Lemma filter_all {A} (P : A → Prop) `{!∀ x, Decision (P x)} (l : list A) :
  (∀ x, x ∈ l → P x) → filter P l = l.
Proof.
  induction l as [|a l IH]; intros Hall; [done|].
  rewrite filter_cons_True by (apply Hall; by left).
  f_equal. apply IH. intros; apply Hall; by right.
Qed.

Lemma intersect_loop_filter b result rest :
  StronglySorted str_lt result → Forall (StronglySorted str_lt) rest →
  intersect_loop b result rest = filter (λ x, Forall (x ∈.) rest) result.
Proof.
  intros Hr Hrest. revert result Hr.
  induction Hrest as [|postings rest' Hp Hrest' IH]; intros result Hr; simpl.
  { symmetry. apply filter_all. by constructor. }
  assert (filter (λ x, Forall (x ∈.) (postings :: rest')) result =
          filter (λ x, Forall (x ∈.) rest') (intersect result postings)) as ->.
  { rewrite intersect_filter, list_filter_filter by done.
    apply list_filter_iff. intros x. rewrite Forall_cons. tauto. }
  assert (StronglySorted str_lt (intersect result postings)) as Hi.
  { rewrite intersect_filter by done. by apply StronglySorted_filter. }
  destruct (intersect result postings) as [|d ds] eqn:E.
  - destruct b; [done|]. by rewrite IH.
  - by apply IH.
Qed.

Lemma intersect_all_filter b first rest :
  Forall (StronglySorted str_lt) (first :: rest) →
  intersect_all b (first :: rest) =
    Ok (filter (λ x, Forall (x ∈.) rest) first).
Proof.
  intros [??]%Forall_cons. simpl. f_equal. by apply intersect_loop_filter.
Qed.

Lemma intersect_all_common b ls :
  ls ≠ [] → Forall (StronglySorted str_lt) ls →
  ∃ r, intersect_all b ls = Ok r ∧ StronglySorted str_lt r
       ∧ ∀ x, x ∈ r ↔ Forall (x ∈.) ls.
Proof.
  destruct ls as [|first rest]; [done|]. intros _ Hs.
  eexists. split; [by apply intersect_all_filter|].
  apply Forall_cons in Hs as [Hf Hrest].
  split; [by apply StronglySorted_filter|].
  intros x. rewrite list_elem_of_filter, Forall_cons. tauto.
Qed.

Lemma StronglySorted_lt_ext l k :
  StronglySorted str_lt l → StronglySorted str_lt k →
  (∀ x, x ∈ l ↔ x ∈ k) → l = k.
Proof.
  intros Hl Hk Hext.
  apply (StronglySorted_unique_strong str_lt); [|done|done|].
  - intros x y _ _ Hxy Hyx.
    destruct (irreflexivity str_lt x). by etrans.
  - apply NoDup_Permutation; auto using StronglySorted_lt_NoDup.
Qed.

(** The lists that [query] hands to [intersect] are of this kind. *)
Lemma sorted_NoDup_Sorted l : NoDup l → Sorted str_lt (sorted l).
Proof.
  intros Hnd. unfold sorted.
  assert (StronglySorted str_le (merge_sort str_le l)) as Hs
    by apply (StronglySorted_merge_sort _).
  assert (NoDup (merge_sort str_le l)) as Hnd'
    by by rewrite merge_sort_Permutation.
  induction Hs as [|x k Hk IH Hx]; [constructor|].
  apply NoDup_cons in Hnd' as [Hxk Hnd'].
  constructor; [by apply IH|].
  destruct k as [|y k']; constructor.
  apply Forall_cons in Hx as [Hxy _].
  destruct (str_le_lt_or_eq _ _ Hxy) as [?| ->]; [done|].
  destruct Hxk. by left.
Qed.

(** C4.  On sorted duplicate-free lists [intersect] returns the sorted list
    of the common elements; an empty argument gives the empty list; and the
    list obtained by chaining [intersect] over several lists, with or without
    the early exit, is the same for every order of the lists. *)
Theorem intersect_sorted_common :
  (∀ list1 list2,
     Sorted str_lt list1 → Sorted str_lt list2 →
     intersect list1 list2 = filter (.∈ list2) list1
     ∧ Sorted str_lt (intersect list1 list2)
     ∧ NoDup (intersect list1 list2)
     ∧ ∀ x, x ∈ intersect list1 list2 ↔ x ∈ list1 ∧ x ∈ list2)
  ∧ (∀ l, intersect l [] = [] ∧ intersect [] l = [])
  ∧ (∀ b b' ls ls',
       ls ≠ [] → Forall (Sorted str_lt) ls → ls ≡ₚ ls' →
       ∃ r, intersect_all b ls = Ok r ∧ intersect_all b' ls' = Ok r
            ∧ ∀ x, x ∈ r ↔ Forall (x ∈.) ls).
Proof.
  split; [|split].
  - intros list1 list2 H1%Sorted_StronglySorted H2%Sorted_StronglySorted;
      [|apply _..].
    assert (StronglySorted str_lt (intersect list1 list2)) as Hs.
    { rewrite intersect_filter by done. by apply StronglySorted_filter. }
    split; [by apply intersect_filter|].
    split; [by apply StronglySorted_Sorted|].
    split; [by apply StronglySorted_lt_NoDup|].
    intros x. rewrite intersect_filter, list_elem_of_filter by done. tauto.
  - intros l. by rewrite intersect_nil_l, intersect_nil_r.
  - intros b b' ls ls' Hne Hs Hperm.
    assert (Forall (StronglySorted str_lt) ls) as Hss.
    { eapply Forall_impl; [exact Hs|]. intros l.
      apply Sorted_StronglySorted, _. }
    assert (Forall (StronglySorted str_lt) ls') as Hss' by by rewrite <- Hperm.
    assert (ls' ≠ []) as Hne'.
    { intros ->. by apply Permutation_nil_r in Hperm. }
    destruct (intersect_all_common b ls Hne Hss) as (r & Hr & Hsr & Hin).
    destruct (intersect_all_common b' ls' Hne' Hss') as (r' & Hr' & Hsr' & Hin').
    exists r. split; [done|]. split; [|done].
    rewrite Hr'. f_equal. apply StronglySorted_lt_ext; [done..|].
    intros x. rewrite Hin, Hin'. by rewrite Hperm.
Qed.

(** ** [postings_list_iterator] *)

Lemma iterate_posting_filter p seen :
  iterate_posting p seen = filter (.∉ seen) (first_occurrences (posting_ids p)).
Proof.
  revert seen. induction p as [d|d q IH] using Posting_chain_ind;
    intros seen; simpl.
  - rewrite filter_cons, filter_nil. by destruct (decide (d ∈ seen)); case_decide.
  - rewrite filter_cons. destruct (decide (d ∈ seen)) as [Hd|Hd].
    + rewrite decide_False by tauto. rewrite IH.
      rewrite list_filter_filter_l; [done|]. intros x Hx ->. done.
    + rewrite decide_True by done. f_equal. rewrite IH.
      rewrite list_filter_filter. apply list_filter_iff. intros x. set_solver.
Qed.

Lemma iterate_filter head seen :
  iterate head seen = filter (.∉ seen) (first_occurrences (chain_ids head)).
Proof. destruct head; [apply iterate_posting_filter|done]. Qed.

Lemma postings_list_iterator_first_occurrences head :
  postings_list_iterator head = first_occurrences (chain_ids head).
Proof.
  unfold postings_list_iterator. rewrite iterate_filter.
  apply filter_all. set_solver.
Qed.

Lemma elem_of_first_occurrences l x : x ∈ first_occurrences l ↔ x ∈ l.
Proof.
  induction l as [|y l IH]; simpl; [done|].
  rewrite !elem_of_cons, list_elem_of_filter, IH.
  destruct (decide (x = y)); naive_solver.
Qed.

Lemma NoDup_first_occurrences l : NoDup (first_occurrences l).
Proof.
  induction l as [|y l IH]; simpl; constructor.
  - rewrite list_elem_of_filter. naive_solver.
  - by apply NoDup_filter.
Qed.

Lemma first_index_Some d l : d ∈ l → is_Some (first_index d l).
Proof.
  induction l as [|x l IH]; simpl; [by intros ?%elem_of_nil|].
  intros Hin. destruct (decide (x = d)); [by eexists|].
  apply elem_of_cons in Hin as [->|Hin]; [done|].
  destruct (IH Hin) as [i ->]. by eexists.
Qed.

Lemma filter_lookup_order {A} (P : A → Prop) `{!∀ x, Decision (P x)}
    (l : list A) i j x y :
  filter P l !! i = Some x → filter P l !! j = Some y → i < j →
  ∃ i' j', l !! i' = Some x ∧ l !! j' = Some y ∧ i' < j'.
Proof.
  revert i j. induction l as [|a l IH]; intros i j; [done|].
  rewrite filter_cons. destruct (decide (P a)) as [Ha|Ha].
  - intros Hi Hj Hlt. destruct j as [|j]; [lia|]. simpl in Hj.
    destruct i as [|i]; simpl in Hi.
    + simplify_eq.
      assert (y ∈ l) as [j' Hj']%list_elem_of_lookup_1.
      { eapply (list_elem_of_filter P), list_elem_of_lookup_2, Hj. }
      exists 0, (S j'). split_and!; [done..|lia].
    + destruct (IH i j Hi Hj) as (i' & j' & ? & ? & ?); [lia|].
      exists (S i'), (S j'). split_and!; [done..|lia].
  - intros Hi Hj Hlt.
    destruct (IH i j Hi Hj Hlt) as (i' & j' & ? & ? & ?).
    exists (S i'), (S j'). split_and!; [done..|lia].
Qed.

Lemma first_occurrences_order l i j x y :
  first_occurrences l !! i = Some x → first_occurrences l !! j = Some y →
  i < j →
  ∃ a b, first_index x l = Some a ∧ first_index y l = Some b ∧ a < b.
Proof.
  revert i j. induction l as [|z l IH]; intros i j; simpl; [done|].
  intros Hi Hj Hlt. destruct j as [|j]; [lia|]. simpl in Hj.
  assert (y ∈ filter (.≠ z) (first_occurrences l)) as Hy
    by by eapply list_elem_of_lookup_2.
  apply list_elem_of_filter in Hy as [Hyz Hy].
  apply (proj1 (elem_of_first_occurrences _ _)), first_index_Some in Hy
    as [b Hb].
  rewrite (decide_False (P := z = y)) by done. rewrite Hb. simpl.
  destruct i as [|i]; simpl in Hi.
  - simplify_eq. rewrite decide_True by done. exists 0, (S b).
    split_and!; [done..|lia].
  - assert (x ∈ filter (.≠ z) (first_occurrences l)) as Hx
      by by eapply list_elem_of_lookup_2.
    apply list_elem_of_filter in Hx as [Hxz Hx].
    rewrite (decide_False (P := z = x)) by done.
    destruct (filter_lookup_order _ _ _ _ _ _ Hi Hj) as (i' & j' & Hi' & Hj' & ?);
      [lia|].
    destruct (IH _ _ Hi' Hj') as (a & b' & Ha & Hb' & ?); [done|].
    rewrite Ha. exists (S a), (S b). simplify_eq. split_and!; [done..|lia].
Qed.

(** C7.  The iterator yields the distinct document IDs of the chain, each
    exactly once, in the order of their first occurrences from the head. *)
Theorem postings_list_iterator_dedup (head : option Posting) :
  postings_list_iterator head = first_occurrences (chain_ids head)
  ∧ NoDup (postings_list_iterator head)
  ∧ (∀ d, d ∈ postings_list_iterator head ↔ d ∈ chain_ids head)
  ∧ (∀ i j x y,
       postings_list_iterator head !! i = Some x →
       postings_list_iterator head !! j = Some y →
       i < j →
       ∃ a b, first_index x (chain_ids head) = Some a
              ∧ first_index y (chain_ids head) = Some b ∧ a < b).
Proof.
  rewrite postings_list_iterator_first_occurrences. split_and!.
  - done.
  - apply NoDup_first_occurrences.
  - intros d. apply elem_of_first_occurrences.
  - apply first_occurrences_order.
Qed.

(** ** [generate_permuterms] *)

Import Assignment2.

Lemma rotation_split (term : str) i :
  i ≤ length term →
  drop i (term ++ [dollar]) ++ take i (term ++ [dollar])
  = drop i term ++ dollar :: take i term.
Proof.
  intros Hi. rewrite drop_app_le, take_app_le by done.
  by rewrite <- (assoc_L (++)).
Qed.

Lemma elem_of_generate_permuterms term k :
  k ∈ generate_permuterms term ↔
  ∃ i, i ≤ length term ∧ k = drop i term ++ dollar :: take i term.
Proof.
  unfold generate_permuterms. rewrite list_elem_of_fmap.
  rewrite length_app. simpl. split.
  - intros (i & -> & Hi%elem_of_seq). exists i. split; [lia|].
    apply rotation_split. lia.
  - intros (i & Hi & ->). exists i. split; [|apply elem_of_seq; lia].
    symmetry. by apply rotation_split.
Qed.

(** C6.  A term without the sentinel has [len(term) + 1] permuterms, the
    rotations of [term + '$'] by 0, 1, ..., [len(term)] in this order, and
    they are pairwise distinct. *)
Theorem generate_permuterms_rotations (term : str) :
  dollar ∉ term →
  length (generate_permuterms term) = length term + 1
  ∧ (∀ i, i ≤ length term →
       generate_permuterms term !! i
       = Some (drop i (term ++ [dollar]) ++ take i (term ++ [dollar])))
  ∧ NoDup (generate_permuterms term).
Proof.
  intros Hd. unfold generate_permuterms. split_and!.
  - rewrite length_fmap, length_seq, length_app. simpl. lia.
  - intros i Hi. rewrite list_lookup_fmap, lookup_seq_lt; [done|].
    rewrite length_app. simpl. lia.
  - apply NoDup_fmap_2_strong; [|apply NoDup_seq].
    intros i j Hi%elem_of_seq Hj%elem_of_seq. rewrite length_app in Hi, Hj.
    simpl in Hi, Hj. rewrite !rotation_split by lia. intros Heq.
    apply not_elem_of_app_cons_inv_l in Heq as (Heq & _ & _).
    + apply (f_equal length) in Heq. rewrite !length_drop in Heq. lia.
    + by intros ?%subseteq_drop.
    + by intros ?%subseteq_drop.
Qed.

(** ** Building the index *)

Lemma for_each_invariant {S X} (I : S → Prop) (body : S → X → result S) xs st :
  (∀ st x, I st → ∃ st', body st x = Ok st' ∧ I st') →
  I st → ∃ st', for_each body xs st = Ok st' ∧ I st'.
Proof.
  intros Hbody. revert st. induction xs as [|x xs IH]; intros st Hst; simpl.
  - by exists st.
  - destruct (Hbody st x Hst) as (st' & -> & Hst'). simpl. by apply IH.
Qed.

Lemma ensure_term_lookup self term :
  ∃ term_data, dictionary (ensure_term self term) !! term = Some term_data.
Proof.
  unfold ensure_term. destruct (dictionary self !! term) eqn:E; [by eexists|].
  simpl. rewrite lookup_insert_eq. by eexists.
Qed.

Lemma ensure_term_consistent self term :
  counters_exact self → pointers_fresh self →
  counters_exact (ensure_term self term) ∧ pointers_fresh (ensure_term self term).
Proof.
  intros Hc Hp. unfold ensure_term.
  destruct (dictionary self !! term) eqn:E; [done|]. split.
  - intros t td. simpl. destruct (decide (t = term)) as [->|Hne].
    + rewrite lookup_insert_eq. intros [= <-]. simpl.
      exists None. by rewrite lookup_insert_eq.
    + rewrite lookup_insert_ne by done. intros Ht.
      destruct (Hc t td Ht) as (head & Hh & ?). exists head. split; [|done].
      rewrite lookup_insert_ne; [done|].
      destruct (Hp t td Ht) as [? _]. lia.
  - intros t td. simpl. destruct (decide (t = term)) as [->|Hne].
    + rewrite lookup_insert_eq. intros [= <-]. simpl. split; [lia|].
      intros t' td'. destruct (decide (t' = term)) as [->|Hne']; [done|].
      rewrite lookup_insert_ne by done. intros Ht' Heq.
      destruct (Hp t' td' Ht') as [? _]. lia.
    + rewrite lookup_insert_ne by done. intros Ht.
      destruct (Hp t td Ht) as [Hlt Hinj]. split; [lia|].
      intros t' td'. destruct (decide (t' = term)) as [->|Hne'].
      * rewrite lookup_insert_eq. intros [= <-]. simpl. lia.
      * rewrite lookup_insert_ne by done. apply Hinj.
Qed.

Lemma chain_length_push d head :
  chain_length (Some (mkPosting d head)) = chain_length head + 1.
Proof. unfold chain_length. destruct head; simpl; lia. Qed.

Lemma append_document_consistent self term tweet_id :
  counters_exact self → pointers_fresh self →
  is_Some (dictionary self !! term) →
  ∃ self', append_document self term tweet_id = Ok self'
    ∧ counters_exact self' ∧ pointers_fresh self'
    ∧ permuterm_index self' = permuterm_index self
    ∧ dom (dictionary self') = dom (dictionary self).
Proof.
  intros Hc Hp [td Htd]. unfold append_document, subscript. rewrite Htd. simpl.
  destruct (Hc term td Htd) as (head & Hh & Hsize & Hadj). rewrite Hh. simpl.
  destruct (Hp term td Htd) as [Hlt Hinj].
  match goal with |- context [if ?b then _ else _] => destruct b eqn:Hpush end;
    [|by eexists].
  eexists. split; [done|]. simpl. split_and!; [| |done|].
  - intros t td'. simpl. destruct (decide (t = term)) as [->|Hne].
    + rewrite lookup_insert_eq. intros [= <-]. simpl.
      eexists. rewrite lookup_insert_eq. split; [done|].
      rewrite chain_length_push. split; [lia|].
      destruct head as [[d nxt]|]; simpl; [|done].
      simpl in Hpush. apply bool_decide_eq_true in Hpush.
      split; [congruence|]. exact Hadj.
    + rewrite lookup_insert_ne by done. intros Ht.
      destruct (Hc t td' Ht) as (head' & Hh' & ?). exists head'.
      split; [|done]. rewrite lookup_insert_ne; [done|].
      intros Heq. apply Hne. by eapply Hinj.
  - intros t td'. simpl. destruct (decide (t = term)) as [->|Hne].
    + rewrite lookup_insert_eq. intros [= <-]. simpl. split; [done|].
      intros t' td''. destruct (decide (t' = term)) as [->|Hne']; [done|].
      rewrite lookup_insert_ne by done. apply Hinj.
    + rewrite lookup_insert_ne by done. intros Ht.
      destruct (Hp t td' Ht) as [? Hinj']. split; [done|].
      intros t' td''. destruct (decide (t' = term)) as [->|Hne'].
      * rewrite lookup_insert_eq. intros [= <-]. simpl. intros Heq.
        symmetry. by eapply Hinj.
      * rewrite lookup_insert_ne by done. apply Hinj'.
  - rewrite dom_insert_L. apply elem_of_dom_2 in Htd. set_solver.
Qed.

Lemma ensure_term_dom self term :
  dom (dictionary (ensure_term self term)) = {[term]} ∪ dom (dictionary self)
  ∧ permuterm_index (ensure_term self term) = permuterm_index self.
Proof.
  unfold ensure_term. destruct (dictionary self !! term) eqn:E; simpl.
  - apply elem_of_dom_2 in E. set_solver.
  - by rewrite dom_insert_L.
Qed.

Lemma add_posting_consistent self term tweet_id :
  counters_exact self → pointers_fresh self →
  ∃ self', add_posting self term tweet_id = Ok self'
    ∧ counters_exact self' ∧ pointers_fresh self'
    ∧ permuterm_index self' = permuterm_index self
    ∧ dom (dictionary self') = {[term]} ∪ dom (dictionary self).
Proof.
  intros Hc Hp. unfold add_posting.
  destruct (ensure_term_consistent self term Hc Hp) as [Hc1 Hp1].
  destruct (append_document_consistent (ensure_term self term) term tweet_id
              Hc1 Hp1 (ensure_term_lookup self term))
    as (self' & -> & ? & ? & Hpi & Hdom).
  destruct (ensure_term_dom self term) as [Hd1 Hpi1].
  exists self'. split_and!; [done..| |]; congruence.
Qed.

Lemma new_index_consistent : counters_exact new_index ∧ pointers_fresh new_index.
Proof. split; intros t td; simpl; by rewrite lookup_empty. Qed.

Lemma head_differs_push head tweet_id :
  head_differs head tweet_id ↔
  match head with
  | None => true
  | Some p => bool_decide (document_id p ≠ tweet_id)
  end = true.
Proof.
  unfold head_differs. destruct head as [p|].
  - rewrite bool_decide_eq_true. naive_solver.
  - naive_solver.
Qed.

(** C5.  On the chain of an existing entry, [append_document] pushes a new
    head that links to the previous head exactly when the chain is empty or
    its head carries another document, it increments the counter exactly
    then, and appending the same document again changes nothing. *)
Theorem append_document_head self term tweet_id term_data head :
  dictionary self !! term = Some term_data →
  postings_lists self !! td_pointer term_data = Some head →
  ∃ self',
    append_document self term tweet_id = Ok self'
    ∧ (head_differs head tweet_id →
         postings_lists self' !! td_pointer term_data
           = Some (Some (mkPosting tweet_id head))
         ∧ dictionary self' !! term
           = Some (mkTermData term (td_size term_data + 1)
                              (td_pointer term_data)))
    ∧ (¬ head_differs head tweet_id → self' = self)
    ∧ (∀ n, for_each (λ st d, append_document st term d)
                     (replicate n tweet_id) self' = Ok self').
Proof.
  intros Htd Hh.
  assert (∀ st td h,
            dictionary st !! term = Some td →
            postings_lists st !! td_pointer td = Some h →
            ¬ head_differs h tweet_id →
            append_document st term tweet_id = Ok st) as Hnop.
  { intros st td h Ht Hp Hno. unfold append_document, subscript.
    rewrite Ht. simpl. rewrite Hp. simpl.
    rewrite head_differs_push in Hno. by apply not_true_is_false in Hno as ->. }
  assert (∀ st, append_document st term tweet_id = Ok st →
            ∀ n, for_each (λ st d, append_document st term d)
                          (replicate n tweet_id) st = Ok st) as Hrep.
  { intros st Hst n. induction n as [|n IH]; simpl; [done|].
    rewrite Hst. simpl. exact IH. }
  assert (head_differs head tweet_id ∨ ¬ head_differs head tweet_id) as [Hd|Hd].
  { rewrite head_differs_push.
    destruct head as [p|]; [destruct (bool_decide _)|]; auto. }
  - eexists. split.
    { unfold append_document, subscript. rewrite Htd. simpl. rewrite Hh. simpl.
      apply head_differs_push in Hd as Hb. by rewrite Hb. }
    split; [|split; [done|]].
    + intros _. simpl. by rewrite !lookup_insert_eq.
    + apply Hrep. eapply Hnop; simpl.
      * apply lookup_insert_eq.
      * simpl. apply lookup_insert_eq.
      * unfold head_differs. simpl. naive_solver.
  - exists self. split; [by eapply Hnop|]. split; [done|]. split; [done|].
    apply Hrep. by eapply Hnop.
Qed.

(** *** Assignment 1 *)

Lemma index1_consistent lower isalnum rows self :
  counters_exact self → pointers_fresh self →
  ∃ self', Assignment1.index lower isalnum self rows = Ok self'
    ∧ counters_exact self' ∧ pointers_fresh self'.
Proof.
  intros Hc Hp. unfold Assignment1.index.
  apply (for_each_invariant (λ st, counters_exact st ∧ pointers_fresh st));
    [|done].
  intros st [tweet_id words] Hst. unfold Assignment1.index_row.
  apply (for_each_invariant (λ st, counters_exact st ∧ pointers_fresh st));
    [|done].
  clear. intros st term [Hc Hp].
  destruct (add_posting_consistent st term tweet_id Hc Hp)
    as (st' & ? & ? & ? & _).
  by exists st'.
Qed.

(** *** Assignment 2 *)

Lemma register_permuterm_registered term pidx permuterm k t :
  registered (Assignment2.register_permuterm term pidx permuterm) k t ↔
  registered pidx k t ∨ (t = term ∧ k = permuterm).
Proof.
  unfold registered, Assignment2.register_permuterm.
  destruct (decide (k = permuterm)) as [->|Hne].
  - destruct (pidx !! permuterm) as [terms|] eqn:E.
    + rewrite lookup_insert_eq. split.
      * intros (ts & [= <-] & Hin). set_solver.
      * intros [(ts & [= <-] & Hin)|[-> _]]; eexists; (split; [done|]);
          set_solver.
    + rewrite lookup_insert_eq. split.
      * intros (ts & [= <-] & Hin). set_solver.
      * intros [(ts & [=] & _)|[-> _]]. eexists. split; [done|]. set_solver.
  - destruct (pidx !! permuterm) as [terms|] eqn:E;
      rewrite lookup_insert_ne by done; naive_solver.
Qed.

Lemma foldl_register_permuterm_registered term permuterms pidx k t :
  registered (foldl (Assignment2.register_permuterm term) pidx permuterms) k t ↔
  registered pidx k t ∨ (t = term ∧ k ∈ permuterms).
Proof.
  revert pidx. induction permuterms as [|p ps IH]; intros pidx; simpl.
  - set_solver.
  - rewrite IH, register_permuterm_registered, elem_of_cons. naive_solver.
Qed.

Lemma index_term_built isalnum tweet_id self term :
  Forall (λ char, isalnum char = true) term →
  built isalnum self →
  ∃ self', Assignment2.index_term tweet_id self term = Ok self'
    ∧ built isalnum self'.
Proof.
  intros Hterm (Hc & Hp & Hr & Hn).
  destruct term as [|c term']; [by exists self|].
  unfold Assignment2.index_term.
  set (term := c :: term') in *.
  set (self1 := mkIndex _ _ _ _).
  destruct (add_posting_consistent self1 term tweet_id Hc Hp)
    as (self' & Hadd & Hc' & Hp' & Hpi & Hdom).
  exists self'. split; [done|]. split_and!; [done..| |].
  - intros k t. rewrite Hpi, Hdom. unfold self1.
    cbn [permuterm_index dictionary].
    rewrite foldl_register_permuterm_registered, (Hr k t).
    rewrite elem_of_union, elem_of_singleton. naive_solver.
  - intros t. rewrite Hdom. unfold self1. cbn [dictionary].
    rewrite elem_of_union, elem_of_singleton. intros [->|Ht]; [done|].
    by apply Hn.
Qed.

Lemma normalize_alnum lower isalnum token :
  Forall (λ char, isalnum char = true)
         (Assignment2.normalize lower isalnum token false).
Proof.
  unfold Assignment2.normalize. apply Forall_forall.
  by intros c [? _]%list_elem_of_filter.
Qed.

Lemma index2_built lower isalnum rows self :
  built isalnum self →
  ∃ self', Assignment2.index lower isalnum self rows = Ok self'
    ∧ built isalnum self'.
Proof.
  intros Hb. unfold Assignment2.index.
  apply (for_each_invariant (built isalnum)); [|done].
  clear. intros st [tweet_id words] Hst. unfold Assignment2.index_row.
  induction words as [|w ws IH] in st, Hst |- *; [by exists st|].
  rewrite fmap_cons. cbn [for_each].
  destruct (index_term_built isalnum tweet_id st _
              (normalize_alnum lower isalnum w) Hst) as (st' & -> & Hst').
  cbn [bind]. by apply IH.
Qed.

Lemma new_index_built isalnum : built isalnum new_index.
Proof.
  destruct new_index_consistent as [??]. split_and!; [done..| |].
  - intros k t. unfold registered. simpl. rewrite lookup_empty, dom_empty_L.
    set_solver.
  - intros t. simpl. rewrite dom_empty_L. set_solver.
Qed.

Lemma distinct_documents_le head :
  size (list_to_set (chain_ids head) : gset str) ≤ chain_length head.
Proof.
  unfold chain_length. induction (chain_ids head) as [|d l IH].
  - rewrite list_to_set_nil, size_empty. simpl. lia.
  - rewrite list_to_set_cons, length_cons.
    rewrite size_union_alt, size_singleton.
    assert (size (list_to_set l ∖ {[d]} : gset str)
            ≤ size (list_to_set l : gset str))
      by (apply subseteq_size; set_solver).
    lia.
Qed.

(** C9.  Whatever rows are indexed, both programs end with an index in which
    the counter of each entry is the number of nodes of its chain and no two
    neighbouring nodes carry the same document; the counter therefore bounds
    the number of distinct documents of the chain, and the bound can be
    strict. *)
Theorem index_counters_exact (lower : str → str) (isalnum : ascii → bool)
    (rows : list (str * list str)) :
  (∃ self, Assignment1.index lower isalnum new_index rows = Ok self
           ∧ counters_exact self
           ∧ ∀ term term_data head,
               dictionary self !! term = Some term_data →
               postings_lists self !! td_pointer term_data = Some head →
               size (list_to_set (chain_ids head) : gset str)
               ≤ td_size term_data)
  ∧ (∃ self, Assignment2.index lower isalnum new_index rows = Ok self
             ∧ counters_exact self
             ∧ ∀ term term_data head,
                 dictionary self !! term = Some term_data →
                 postings_lists self !! td_pointer term_data = Some head →
                 size (list_to_set (chain_ids head) : gset str)
                 ≤ td_size term_data)
  ∧ (∃ self term_data head,
       Assignment2.index ascii_lower ascii_isalnum new_index
         [(s "1", [s "flu"]); (s "2", [s "flu"]); (s "1", [s "flu"])] = Ok self
       ∧ dictionary self !! s "flu" = Some term_data
       ∧ postings_lists self !! td_pointer term_data = Some head
       ∧ size (list_to_set (chain_ids head) : gset str) < td_size term_data).
Proof.
  assert (∀ self, counters_exact self →
            ∀ term term_data head,
              dictionary self !! term = Some term_data →
              postings_lists self !! td_pointer term_data = Some head →
              size (list_to_set (chain_ids head) : gset str)
              ≤ td_size term_data) as Hbound.
  { intros self Hc term td head Htd Hh.
    destruct (Hc term td Htd) as (head' & Hh' & -> & _).
    assert (head' = head) as -> by congruence.
    apply distinct_documents_le. }
  split_and!.
  - destruct new_index_consistent as [Hc Hp].
    destruct (index1_consistent lower isalnum rows new_index Hc Hp)
      as (self & ? & ? & _).
    exists self. split_and!; eauto.
  - destruct (index2_built lower isalnum rows new_index (new_index_built isalnum))
      as (self & ? & ? & _).
    exists self. split_and!; eauto.
  - eexists _, _, _. split_and!; [vm_compute; reflexivity..|].
    vm_compute. lia.
Qed.

(** ** Wildcard expansion *)

Lemma find_star_None term :
  Assignment2.find_star term = None ↔ star ∉ term.
Proof.
  induction term as [|c rest IH]; simpl.
  - split; [intros _ ?%elem_of_nil|]; done.
  - rewrite not_elem_of_cons. destruct (decide (c = star)) as [->|Hne].
    + naive_solver.
    + destruct (Assignment2.find_star rest); simpl; naive_solver.
Qed.

Lemma find_star_split prefix suffix :
  star ∉ prefix →
  Assignment2.find_star (prefix ++ star :: suffix) = Some (length prefix).
Proof.
  induction prefix as [|c rest IH]; simpl.
  - done.
  - intros [Hc Hrest]%not_elem_of_cons.
    rewrite decide_False by done. by rewrite IH.
Qed.

Lemma find_star_Some term i :
  Assignment2.find_star term = Some i →
  ∃ prefix suffix,
    term = prefix ++ star :: suffix ∧ star ∉ prefix ∧ length prefix = i.
Proof.
  revert i. induction term as [|c rest IH]; intros i; simpl; [done|].
  destruct (decide (c = star)) as [->|Hne].
  - intros [= <-]. exists [], rest. split_and!; [done| |done].
    apply not_elem_of_nil.
  - destruct (Assignment2.find_star rest) as [j|]; simpl; [|done].
    intros [= <-]. destruct (IH j eq_refl) as (p & q & -> & Hp & <-).
    exists (c :: p), q. split_and!; [done| |done].
    rewrite not_elem_of_cons. done.
Qed.

Lemma rstrip_star_keep (x : str) c (y : str) :
  c ≠ star →
  Assignment2.rstrip_star (x ++ c :: y) = x ++ c :: Assignment2.rstrip_star y.
Proof.
  intros Hc. induction x as [|a x IH]; simpl.
  - destruct (Assignment2.rstrip_star y); [by rewrite decide_False|done].
  - rewrite IH. by destruct x.
Qed.

Lemma rstrip_star_free (x : str) :
  star ∉ x → Assignment2.rstrip_star x = x.
Proof.
  induction x as [|a x IH]; simpl; [done|].
  intros [Ha Hx]%not_elem_of_cons. rewrite IH by done.
  destruct x; [by rewrite decide_False|done].
Qed.

Lemma rstrip_star_snoc (x : str) :
  Assignment2.rstrip_star (x ++ [star]) = Assignment2.rstrip_star x.
Proof.
  induction x as [|a x IH]; simpl; [done|].
  by rewrite IH.
Qed.

(** The string whose extensions are looked for, for a term cut at its first
    [*]. *)
Lemma search_prefix (prefix suffix : str) :
  star ∉ prefix →
  let term := prefix ++ star :: suffix in
  Assignment2.rstrip_star
    (drop (length prefix + 1) (term ++ [dollar])
     ++ take (length prefix + 1) (term ++ [dollar]))
  = suffix ++ dollar :: prefix.
Proof.
  intros Hp term. unfold term.
  replace (length prefix + 1) with (length (prefix ++ [star]))
    by (rewrite length_app; simpl; lia).
  replace ((prefix ++ star :: suffix) ++ [dollar])
    with ((prefix ++ [star]) ++ (suffix ++ [dollar]))
    by (by rewrite <- !(assoc_L (++))).
  rewrite drop_app_length, take_app_length.
  rewrite <- (assoc_L (++)). simpl.
  rewrite rstrip_star_keep by done.
  by rewrite rstrip_star_snoc, rstrip_star_free.
Qed.

Lemma elem_of_matching (search : str) (pidx : gmap str (gset str)) (t : str) :
  t ∈ map_fold (λ (permuterm : str) (terms matching_terms : gset str),
                  if decide (search `prefix_of` permuterm)
                  then matching_terms ∪ terms else matching_terms)
               ∅ pidx
  ↔ ∃ permuterm, search `prefix_of` permuterm ∧ registered pidx permuterm t.
Proof.
  unfold registered.
  apply (map_fold_weak_ind (λ r m, t ∈ r ↔
           ∃ permuterm, search `prefix_of` permuterm
                        ∧ ∃ terms, m !! permuterm = Some terms ∧ t ∈ terms)).
  - split; [set_solver|]. intros (k & _ & ts & Hk & _).
    by rewrite lookup_empty in Hk.
  - intros k ts m r Hk IH. split.
    + intros Hin.
      assert (t ∈ r ∨ (search `prefix_of` k ∧ t ∈ ts)) as [Hr|[Hs Ht]].
      { destruct (decide (search `prefix_of` k)); set_solver. }
      * apply IH in Hr as (k' & ? & ts' & Hk' & ?). exists k'. split; [done|].
        exists ts'. split; [|done]. rewrite lookup_insert_ne; [done|].
        intros ->. congruence.
      * exists k. split; [done|]. exists ts. by rewrite lookup_insert_eq.
    + intros (k' & Hs & ts' & Hk' & Ht).
      destruct (decide (k = k')) as [->|Hne].
      * rewrite lookup_insert_eq in Hk'. simplify_eq.
        rewrite decide_True by done. set_solver.
      * rewrite lookup_insert_ne in Hk' by done.
        assert (t ∈ r) by (apply IH; eauto).
        destruct (decide (search `prefix_of` k)); set_solver.
Qed.

Lemma elem_of_expand_wildcard self (prefix suffix : str) t :
  star ∉ prefix →
  t ∈ Assignment2.expand_wildcard self (prefix ++ star :: suffix) ↔
  ∃ permuterm, (suffix ++ dollar :: prefix) `prefix_of` permuterm
               ∧ registered (permuterm_index self) permuterm t.
Proof.
  intros Hp. unfold Assignment2.expand_wildcard.
  rewrite find_star_split by done. rewrite search_prefix by done.
  apply elem_of_matching.
Qed.

Lemma prefix_around_dollar (B A u v : str) :
  dollar ∉ u → dollar ∉ v →
  (B ++ dollar :: A) `prefix_of` (u ++ dollar :: v) →
  B = u ∧ A `prefix_of` v.
Proof.
  intros Hu Hv. revert u Hu.
  induction B as [|b B IH]; intros [|c u] Hu Hpre; simpl in *.
  - split; [done|]. by eapply prefix_cons_inv_2.
  - apply prefix_cons_inv_1 in Hpre as <-. set_solver.
  - apply prefix_cons_inv_2 in Hpre. destruct Hpre as [rest ->].
    exfalso. apply Hv. rewrite <- (assoc_L (++)). set_solver.
  - apply prefix_cons_inv_1 in Hpre as Hbc. subst c.
    apply prefix_cons_inv_2 in Hpre.
    destruct (IH u) as [-> ?]; [set_solver|done|done].
Qed.

Lemma built_term_chars isalnum self term c :
  built isalnum self → term ∈ dom (dictionary self) →
  isalnum c = false → c ∉ term.
Proof.
  intros (_ & _ & _ & Hn) Hterm Hc Hin.
  destruct (Hn term Hterm) as [_ Hall].
  rewrite Forall_forall in Hall. specialize (Hall c Hin). congruence.
Qed.

Lemma expand_wildcard_built isalnum self (A B t : str) :
  isalnum dollar = false → built isalnum self → star ∉ A →
  t ∈ Assignment2.expand_wildcard self (A ++ star :: B) ↔
  t ∈ dom (dictionary self) ∧ A `prefix_of` t ∧ B `suffix_of` t
  ∧ length A + length B ≤ length t.
Proof.
  intros Hd Hb HA. rewrite elem_of_expand_wildcard by done.
  pose proof Hb as (Hc & Hp & Hr & Hn).
  split.
  - intros (k & Hpre & [Ht Hk]%Hr).
    apply elem_of_generate_permuterms in Hk as (i & Hi & ->).
    assert (dollar ∉ t) as Hdt by by eapply built_term_chars.
    apply prefix_around_dollar in Hpre as [-> HAt].
    + split; [done|]. split_and!.
      * rewrite <- (take_drop i t). by apply prefix_app_r.
      * apply suffix_drop.
      * apply prefix_length in HAt. rewrite length_take in HAt.
        rewrite length_drop. lia.
    + by intros ?%subseteq_drop.
    + by intros ?%subseteq_take.
  - intros (Ht & [m1 HA1] & [m2 HB2] & Hlen).
    exists (B ++ dollar :: m2). split.
    + apply prefix_app, prefix_cons.
      assert (length A ≤ length m2).
      { apply (f_equal length) in HB2. rewrite length_app in HB2. lia. }
      exists (drop (length A) m2).
      assert (A = take (length A) m2) as HAm.
      { rewrite <- (take_app_le m2 B) by done. rewrite <- HB2, HA1.
        by rewrite take_app_length. }
      rewrite HAm at 1. by rewrite take_drop.
    + apply Hr. split; [done|]. apply elem_of_generate_permuterms.
      exists (length m2). rewrite HB2, length_app.
      rewrite drop_app_length, take_app_length. split; [lia|done].
Qed.

(** C3.  On an index that [index] has built, a term [A*B] with a single
    wildcard expands to the dictionary terms that start with [A], end with
    [B] and are long enough for both; this set is the union of the sets held
    for the permuterms that extend [B$A], the string that the rotation and
    the [rstrip] compute.  [*ffect] covers [effect] and not [effects]. *)
Theorem expand_wildcard_single_star (lower : str → str) (isalnum : ascii → bool)
    (rows : list (str * list str)) (self : InvertedIndex) :
  isalnum dollar = false →
  Assignment2.index lower isalnum new_index rows = Ok self →
  (∀ A B : str, star ∉ A → star ∉ B →
     Assignment2.find_star (A ++ star :: B) = Some (length A)
     ∧ Assignment2.rstrip_star
         (drop (length A + 1) ((A ++ star :: B) ++ [dollar])
          ++ take (length A + 1) ((A ++ star :: B) ++ [dollar]))
       = B ++ dollar :: A
     ∧ (∀ t, t ∈ Assignment2.expand_wildcard self (A ++ star :: B) ↔
             t ∈ dom (dictionary self) ∧ A `prefix_of` t ∧ B `suffix_of` t
             ∧ length A + length B ≤ length t)
     ∧ (∀ t, t ∈ Assignment2.expand_wildcard self (A ++ star :: B) ↔
             ∃ permuterm, (B ++ dollar :: A) `prefix_of` permuterm
                          ∧ registered (permuterm_index self) permuterm t))
  ∧ (s "effect" ∈ dom (dictionary self) →
     s "effect" ∈ Assignment2.expand_wildcard self (s "*ffect"))
  ∧ s "effects" ∉ Assignment2.expand_wildcard self (s "*ffect").
Proof.
  intros Hd Hindex.
  destruct (index2_built lower isalnum rows new_index (new_index_built isalnum))
    as (self' & Hindex' & Hb).
  assert (self' = self) as -> by congruence.
  split_and!.
  - intros A B HA HB. split_and!.
    + by apply find_star_split.
    + by apply (search_prefix A B).
    + intros t. by eapply expand_wildcard_built.
    + intros t. by apply elem_of_expand_wildcard.
  - intros Hin.
    apply (expand_wildcard_built isalnum self [] (s "ffect")); [done..| |].
    { apply not_elem_of_nil. }
    split; [done|]. split_and!.
    + apply prefix_nil.
    + by exists [ascii_of_nat 101].
    + simpl. lia.
  - intros Hin.
    apply (expand_wildcard_built isalnum self [] (s "ffect")) in Hin
      as (_ & _ & Hsuf & _); [|done..|apply not_elem_of_nil].
    destruct Hsuf as [m Hm]. apply (f_equal reverse) in Hm.
    rewrite reverse_app in Hm. vm_compute in Hm. discriminate.
Qed.

(** ** Queries *)

Lemma subscript_Some `{Countable K} {V} (d : gmap K V) k v :
  d !! k = Some v → subscript d k = Ok v.
Proof. unfold subscript. by intros ->. Qed.



(** The group of candidate terms that [query] forms for a normalized term. *)
Lemma expand_all_cases self (normalized_terms : list str) acc :
  Assignment2.expand_all self normalized_terms acc = None
  ∨ Assignment2.expand_all self normalized_terms acc
    = Some (acc ++ ((λ term, if decide (star ∈ term)
                             then Assignment2.expand_wildcard self term
                             else {[term]}) <$> normalized_terms)).
Proof.
  revert acc. induction normalized_terms as [|term rest IH]; intros acc.
  - right. simpl. by rewrite app_nil_r.
  - cbn [Assignment2.expand_all]. rewrite fmap_cons.
    destruct (decide (star ∈ term)).
    + destruct (decide (Assignment2.expand_wildcard self term = ∅));
        [by left|].
      destruct (IH (acc ++ [Assignment2.expand_wildcard self term]))
        as [->| ->]; [by left|right]. by rewrite <- (assoc_L (++)).
    + destruct (IH (acc ++ [{[term]}])) as [->| ->]; [by left|right].
      by rewrite <- (assoc_L (++)).
Qed.



(** The postings of a group of terms. *)
Lemma union_postings_total (self : InvertedIndex) (terms : gset str) :
  counters_exact self →
  ∃ term_postings,
    Assignment2.union_postings self terms = Ok term_postings
    ∧ ∀ d, d ∈ term_postings ↔
           ∃ term term_data head,
             term ∈ terms ∧ dictionary self !! term = Some term_data
             ∧ postings_lists self !! td_pointer term_data = Some head
             ∧ d ∈ chain_ids head.
Proof.
  intros Hc. unfold Assignment2.union_postings.
  assert (∀ (l : list str) (acc : gset str),
    ∃ ps, for_each
        (λ (term_postings : gset str) (term : str),
           match dictionary self !! term with
           | None => Ok term_postings
           | Some term_data =>
               let! head :=
                 subscript (postings_lists self) (td_pointer term_data) in
               Ok (term_postings ∪ list_to_set (postings_list_iterator head))
           end) l acc = Ok ps
      ∧ ∀ d, d ∈ ps ↔
          d ∈ acc ∨ ∃ term term_data head,
             term ∈ l ∧ dictionary self !! term = Some term_data
             ∧ postings_lists self !! td_pointer term_data = Some head
             ∧ d ∈ chain_ids head) as Hloop.
  { induction l as [|t l IH]; intros acc; cbn [for_each].
    - exists acc. split; [done|]. intros d. split; [by left|].
      intros [?|(? & ? & ? & ?%elem_of_nil & _)]; done.
    - destruct (dictionary self !! t) as [td|] eqn:Ht.
      + destruct (Hc t td Ht) as (head & Hh & _).
        rewrite (subscript_Some _ _ _ Hh). cbn [bind].
        destruct (IH (acc ∪ list_to_set (postings_list_iterator head)))
          as (ps & -> & Hps).
        exists ps. split; [done|]. intros d. rewrite Hps.
        rewrite elem_of_union, elem_of_list_to_set.
        rewrite postings_list_iterator_first_occurrences,
          elem_of_first_occurrences.
        setoid_rewrite elem_of_cons. split.
        * intros [[?|?]|(t' & td' & h' & ? & ?)]; [by left| |].
          -- right. exists t, td, head. by eauto.
          -- right. exists t', td', h'. by eauto.
        * intros [?|(t' & td' & h' & [->|?] & Ht' & Hh' & ?)].
          -- by left; left.
          -- simplify_eq. by left; right.
          -- right. exists t', td', h'. by eauto.
      + cbn [bind]. destruct (IH acc) as (ps & -> & Hps).
        exists ps. split; [done|]. intros d. rewrite Hps.
        setoid_rewrite elem_of_cons. split.
        * intros [?|(t' & td' & h' & ? & ?)]; [by left|].
          right. exists t', td', h'. by eauto.
        * intros [?|(t' & td' & h' & [->|?] & Ht' & ?)]; [by left| |].
          -- congruence.
          -- right. exists t', td', h'. by eauto. }
  destruct (Hloop (elements terms) ∅) as (ps & Hps & Hin).
  exists ps. split; [done|]. intros d. rewrite Hin.
  setoid_rewrite elem_of_elements. set_solver.
Qed.

Lemma gather2_empty_group (self : InvertedIndex) (groups : list (gset str))
    (acc : list (list str)) (terms : gset str) :
  counters_exact self → terms ∈ groups →
  Assignment2.union_postings self terms = Ok ∅ →
  Assignment2.gather self groups acc = Ok None.
Proof.
  intros Hc Hin Hempty. revert acc.
  induction groups as [|g rest IH]; intros acc;
    [by apply elem_of_nil in Hin|].
  cbn [Assignment2.gather].
  apply elem_of_cons in Hin as [<-|Hin].
  - rewrite Hempty. cbn [bind]. by rewrite decide_True.
  - destruct (union_postings_total self g Hc) as (ps & -> & _). cbn [bind].
    destruct (decide (ps = ∅)); [done|]. by apply IH.
Qed.

Lemma union_postings_missing (self : InvertedIndex) (term : str) :
  counters_exact self → dictionary self !! term = None →
  Assignment2.union_postings self {[term]} = Ok ∅.
Proof.
  intros Hc Hnone.
  destruct (union_postings_total self {[term]} Hc) as (ps & -> & Hps).
  f_equal. apply set_eq. intros d. rewrite Hps. split; [|set_solver].
  intros (t & td & h & ->%elem_of_singleton & Ht & _). congruence.
Qed.

Lemma query2_missing_literal lower isalnum (self : InvertedIndex)
    (terms : list str) (t : str) :
  counters_exact self → t ∈ terms →
  star ∉ Assignment2.normalize lower isalnum t true →
  dictionary self !! Assignment2.normalize lower isalnum t true = None →
  Assignment2.query lower isalnum self terms = Ok [].
Proof.
  intros Hc Hin Hstar Hnone. unfold Assignment2.query.
  set (nts := (λ term, Assignment2.normalize lower isalnum term true) <$> terms).
  destruct (expand_all_cases self nts []) as [-> | ->]; [done|].
  rewrite (gather2_empty_group self _ []
             {[Assignment2.normalize lower isalnum t true]}); [done|done| |].
  - rewrite app_nil_l. apply list_elem_of_fmap.
    exists (Assignment2.normalize lower isalnum t true).
    split; [by rewrite decide_False|].
    unfold nts. apply list_elem_of_fmap. by exists t.
  - by apply union_postings_missing.
Qed.


(** C2.  With no term at all, [query] of either program runs into
    [postings_lists[0]] on an empty list: it raises [IndexError], and nothing
    is looked up, printed or returned before. *)
Theorem query_no_terms (lower : str → str) (isalnum : ascii → bool)
    (self : InvertedIndex) :
  Assignment2.query lower isalnum self [] = Raise IndexError
  ∧ Assignment1.query lower isalnum self []
    = Assignment1.mkOutcome [] (Raise IndexError).
Proof. done. Qed.



(** C10.  [index] skips the empty token, so the empty string is never a
    term of the dictionary, and a query one of whose tokens normalizes to
    the empty string returns the empty list. *)
Theorem query_empty_token (lower : str → str) (isalnum : ascii → bool)
    (rows : list (str * list str)) (self : InvertedIndex)
    (terms : list str) (t : str) :
  Assignment2.index lower isalnum new_index rows = Ok self →
  t ∈ terms →
  Assignment2.normalize lower isalnum t true = [] →
  (∀ tweet_id st, Assignment2.index_term tweet_id st [] = Ok st)
  ∧ dictionary self !! [] = None
  ∧ Assignment2.query lower isalnum self terms = Ok [].
Proof.
  intros Hindex Hin Hnorm.
  destruct (index2_built lower isalnum rows new_index (new_index_built isalnum))
    as (self' & Hindex' & Hc & _ & _ & Hn).
  assert (self' = self) as -> by congruence.
  assert (dictionary self !! [] = None) as Hnone.
  { apply not_elem_of_dom. intros [? _]%Hn. done. }
  split_and!; [done..|].
  eapply query2_missing_literal; [done..| |]; rewrite Hnorm; [|done].
  apply not_elem_of_nil.
Qed.

(** * The model at work on the example corpus *)


Lemma example_index2_built :
  Assignment2.index ascii_lower ascii_isalnum new_index example_rows
  = Ok example_index2.
Proof.
  destruct (index2_built ascii_lower ascii_isalnum example_rows new_index
              (new_index_built ascii_isalnum)) as (self & Hindex & _).
  unfold example_index2. by rewrite Hindex.
Qed.



Lemma expand_wildcard_single_star_witness :
  s "side" ∈ Assignment2.expand_wildcard example_index2 (s "s*e")
  ∧ s "effect" ∈ Assignment2.expand_wildcard example_index2 (s "*ffect")
  ∧ s "effects" ∉ Assignment2.expand_wildcard example_index2 (s "*ffect").
Proof.
  destruct (expand_wildcard_single_star ascii_lower ascii_isalnum
              example_rows example_index2 eq_refl example_index2_built)
    as (Hone & Heffect & Heffects).
  split_and!; [|apply Heffect; compute_done|exact Heffects].
  destruct (Hone (s "s") (s "e")) as (_ & _ & Hiff & _); [compute_done..|].
  apply Hiff. split_and!; compute_done.
Defined.

Lemma intersect_sorted_common_witness :
  intersect [s "doc1"; s "doc2"] [s "doc2"; s "doc3"] = [s "doc2"]
  ∧ ∃ r, intersect_all true [[s "doc1"; s "doc2"]; [s "doc2"; s "doc3"]] = Ok r
         ∧ intersect_all false [[s "doc2"; s "doc3"]; [s "doc1"; s "doc2"]] = Ok r.
Proof.
  destruct intersect_sorted_common as (Htwo & _ & Hall). split.
  - destruct (Htwo [s "doc1"; s "doc2"] [s "doc2"; s "doc3"])
      as (-> & _); [compute_done..|]. compute_done.
  - destruct (Hall true false [[s "doc1"; s "doc2"]; [s "doc2"; s "doc3"]]
                [[s "doc2"; s "doc3"]; [s "doc1"; s "doc2"]])
      as (r & ? & ? & _); [done|compute_done|apply Permutation_swap|].
    by exists r.
Defined.

Lemma append_document_head_witness :
  ∃ term_data head self',
    dictionary example_index2 !! s "malaria" = Some term_data
    ∧ postings_lists example_index2 !! td_pointer term_data = Some head
    ∧ append_document example_index2 (s "malaria") (s "doc3") = Ok self'
    ∧ append_document self' (s "malaria") (s "doc3") = Ok self'.
Proof.
  assert (∃ term_data head,
            dictionary example_index2 !! s "malaria" = Some term_data
            ∧ postings_lists example_index2 !! td_pointer term_data = Some head)
    as (term_data & head & Hdict & Hhead).
  { eexists _, _. split; vm_compute; reflexivity. }
  destruct (append_document_head example_index2 (s "malaria") (s "doc3")
              term_data head Hdict Hhead) as (self' & Hrun & _ & _ & Hrep).
  exists term_data, head, self'. split_and!; [done..|].
  specialize (Hrep 1). cbn [replicate for_each] in Hrep.
  destruct (append_document self' (s "malaria") (s "doc3"));
    cbn [bind] in Hrep; congruence.
Defined.

Lemma generate_permuterms_rotations_witness :
  Assignment2.generate_permuterms (s "abc")
  = [s "abc$"; s "bc$a"; s "c$ab"; s "$abc"]
  ∧ length (Assignment2.generate_permuterms (s "abc")) = 4
  ∧ NoDup (Assignment2.generate_permuterms (s "abc")).
Proof.
  destruct (generate_permuterms_rotations (s "abc")) as (Hlen & _ & Hnodup);
    [compute_done|].
  split_and!; [reflexivity|exact Hlen|exact Hnodup].
Defined.



Lemma query_empty_token_witness :
  dictionary example_index2 !! [] = None
  ∧ Assignment2.query ascii_lower ascii_isalnum example_index2
      [s "side"; s "--"] = Ok [].
Proof.
  destruct (query_empty_token ascii_lower ascii_isalnum example_rows
              example_index2 [s "side"; s "--"] (s "--"))
    as (_ & Hnone & Hquery);
    [exact example_index2_built|compute_done|vm_compute; reflexivity|].
  by split.
Defined.

(** Assignment 1 has no such guard: it indexes the empty token and finds
    it. *)
Lemma assignment1_indexes_empty_token :
  Assignment1.query ascii_lower ascii_isalnum
    (match Assignment1.index ascii_lower ascii_isalnum new_index
             [(s "doc3", [s "No"; s "--"])] with
     | Ok self => self
     | Raise _ => new_index
     end)
    [s "--"]
  = Assignment1.mkOutcome [] (Ok [s "doc3"]).
Proof. vm_compute. reflexivity. Qed.

(** The end-to-end queries of the example corpus. *)
Lemma example_queries :
  Assignment1.query ascii_lower ascii_isalnum example_index1
    [s "side"; s "effects"; s "malaria"]
  = Assignment1.mkOutcome [] (Ok [s "doc1"; s "doc2"])
  ∧ Assignment2.query ascii_lower ascii_isalnum example_index2
      [s "side"; s "effects"; s "malaria"] = Ok [s "doc1"; s "doc2"]
  ∧ Assignment2.query ascii_lower ascii_isalnum example_index2
      [s "mal*"; s "disease"] = Ok []
  ∧ Assignment2.query ascii_lower ascii_isalnum example_index2
      [s "s*e"; s "effect"] = Ok [s "doc2"].
Proof. split_and!; vm_compute; reflexivity. Qed.

(** * Further properties *)

(** ** What the index holds *)

Lemma chain_ids_Some p :
  chain_ids (Some p) = document_id p :: chain_ids (next_posting p).
Proof. by destruct p as [d [q|]]. Qed.

Lemma chain_after_snoc ids d :
  chain_after (ids ++ [d]) = push_document (chain_after ids) d.
Proof. unfold chain_after. by rewrite foldl_app. Qed.

Lemma inserted_ids_app E1 E2 t :
  inserted_ids (E1 ++ E2) t = inserted_ids E1 t ++ inserted_ids E2 t.
Proof. unfold inserted_ids. by rewrite filter_app, fmap_app. Qed.

Lemma inserted_ids_singleton t d t' :
  inserted_ids [(t, d)] t' = if decide (t = t') then [d] else [].
Proof.
  unfold inserted_ids. rewrite filter_cons. simpl.
  by destruct (decide (t = t')).
Qed.

Lemma postings_of_ensure_term self term t :
  pointers_fresh self →
  postings_of (ensure_term self term) t = postings_of self t.
Proof.
  intros Hp. unfold postings_of, ensure_term.
  destruct (dictionary self !! term) as [td|] eqn:E; [done|]. simpl.
  destruct (decide (t = term)) as [->|Hne].
  - rewrite lookup_insert_eq, E. simpl. by rewrite lookup_insert_eq.
  - rewrite lookup_insert_ne by done.
    destruct (dictionary self !! t) as [td|] eqn:Ht; [|done].
    destruct (Hp t td Ht) as [Hlt _]. rewrite lookup_insert_ne by lia. done.
Qed.

Lemma pointers_dense_ensure_term self term :
  pointers_dense self → pointers_dense (ensure_term self term).
Proof.
  intros (Hsize & Hdom & Hkey). unfold ensure_term.
  destruct (dictionary self !! term) as [td|] eqn:E; [done|].
  split_and!; simpl.
  - rewrite map_size_insert_None by done. lia.
  - intros p. destruct (decide (p = posting_id_counter self)) as [->|Hne].
    + rewrite lookup_insert_eq. split; [lia|by eexists].
    + rewrite lookup_insert_ne by done. rewrite Hdom. lia.
  - intros t td. destruct (decide (t = term)) as [->|Hne].
    + rewrite lookup_insert_eq. by intros [= <-].
    + rewrite lookup_insert_ne by done. apply Hkey.
Qed.

Lemma append_document_step self term tweet_id :
  counters_exact self → pointers_fresh self →
  is_Some (dictionary self !! term) →
  ∃ self', append_document self term tweet_id = Ok self'
    ∧ (pointers_dense self → pointers_dense self')
    ∧ ∀ t, postings_of self' t
           = if decide (t = term)
             then push_document (postings_of self term) tweet_id
             else postings_of self t.
Proof.
  intros Hc Hp [td Htd]. unfold append_document.
  rewrite (subscript_Some _ _ _ Htd). cbn [bind].
  destruct (Hc term td Htd) as (head & Hh & _).
  rewrite (subscript_Some _ _ _ Hh). cbn [bind].
  destruct (Hp term td Htd) as [Hlt Hinj].
  assert (postings_of self term = chain_ids head) as Hpo.
  { unfold postings_of. by rewrite Htd, Hh. }
  match goal with |- context [if ?b then _ else _] => destruct b eqn:Hpush end.
  - eexists. split; [done|]. split.
    + intros (Hsize & Hdom & Hkey). split_and!; simpl.
      * rewrite map_size_insert_Some by done. done.
      * intros p. destruct (decide (p = td_pointer td)) as [->|Hne].
        -- rewrite lookup_insert_eq. split; [done|by eexists].
        -- rewrite lookup_insert_ne by done. apply Hdom.
      * intros t td'. destruct (decide (t = term)) as [->|Hne].
        -- rewrite lookup_insert_eq. by intros [= <-].
        -- rewrite lookup_insert_ne by done. apply Hkey.
    + intros t. unfold postings_of at 1. simpl.
      destruct (decide (t = term)) as [->|Hne].
      * rewrite lookup_insert_eq. simpl. rewrite lookup_insert_eq.
        rewrite Hpo, chain_ids_Some. simpl. unfold push_document.
        destruct head as [p|]; [|done]. rewrite chain_ids_Some.
        simpl in Hpush. apply bool_decide_eq_true in Hpush.
        by rewrite decide_False.
      * rewrite lookup_insert_ne by done. unfold postings_of.
        destruct (dictionary self !! t) as [td'|] eqn:Ht; [|done].
        rewrite lookup_insert_ne; [done|].
        intros Heq. apply Hne. by eapply Hinj.
  - exists self. split; [done|]. split; [done|]. intros t.
    destruct (decide (t = term)) as [->|Hne]; [|done].
    rewrite Hpo. destruct head as [p|]; [|done].
    simpl in Hpush. apply bool_decide_eq_false in Hpush.
    rewrite chain_ids_Some. unfold push_document.
    rewrite decide_True; [done|]. by apply dec_stable.
Qed.

Lemma add_posting_tracks events self term tweet_id :
  tracks events self →
  ∃ self', add_posting self term tweet_id = Ok self'
    ∧ tracks (events ++ [(term, tweet_id)]) self'
    ∧ permuterm_index self' = permuterm_index self.
Proof.
  intros (Hc & Hp & Hd & Hpo & Hdom).
  destruct (add_posting_consistent self term tweet_id Hc Hp)
    as (self' & Hadd & Hc' & Hp' & Hpi & Hdom').
  exists self'. split; [done|]. split; [|done].
  destruct (ensure_term_consistent self term Hc Hp) as [Hc1 Hp1].
  destruct (append_document_step (ensure_term self term) term tweet_id
              Hc1 Hp1 (ensure_term_lookup self term))
    as (self'' & Hrun & Hdense & Hpost).
  unfold add_posting in Hadd. assert (self'' = self') as -> by congruence.
  split_and!; [done..| | |].
  - by apply Hdense, pointers_dense_ensure_term.
  - intros t. rewrite Hpost, inserted_ids_app, inserted_ids_singleton.
    rewrite !postings_of_ensure_term by done.
    destruct (decide (t = term)) as [->|Hne].
    + rewrite decide_True by done. by rewrite chain_after_snoc, Hpo.
    + rewrite decide_False by done. by rewrite app_nil_r.
  - intros t. rewrite Hdom', fmap_app, elem_of_app, elem_of_union, Hdom.
    simpl. rewrite elem_of_singleton, list_elem_of_singleton. tauto.
Qed.

Lemma tracks_permuterm_index events self pidx :
  tracks events self →
  tracks events (mkIndex (dictionary self) (postings_lists self)
                         (posting_id_counter self) pidx).
Proof. done. Qed.

Lemma for_each_events {S X E} (I : list E → S → Prop)
    (body : S → X → result S) (events_of : X → list E) xs st pre :
  (∀ pre st x, I pre st →
     ∃ st', body st x = Ok st' ∧ I (pre ++ events_of x) st') →
  I pre st →
  ∃ st', for_each body xs st = Ok st' ∧ I (pre ++ (xs ≫= events_of)) st'.
Proof.
  intros Hbody. revert st pre.
  induction xs as [|x xs IH]; intros st pre Hst; cbn [for_each].
  - exists st. split; [done|]. by rewrite app_nil_r.
  - destruct (Hbody pre st x Hst) as (st' & -> & Hst'). cbn [bind].
    destruct (IH st' _ Hst') as (st'' & -> & Hst'').
    exists st''. split; [done|]. by rewrite bind_cons, (assoc_L (++)).
Qed.

Lemma index1_tracks lower isalnum rows self pre :
  tracks pre self →
  ∃ self', Assignment1.index lower isalnum self rows = Ok self'
    ∧ tracks (pre ++ insertions (Assignment1.normalize lower isalnum) false rows)
             self'.
Proof.
  intros Ht. unfold Assignment1.index, insertions.
  apply (for_each_events tracks); [|done].
  clear. intros pre st [tweet_id words] Hst. unfold Assignment1.index_row.
  cbn [fst snd].
  apply (for_each_events tracks); [|done].
  clear. intros pre st term Hst.
  destruct (add_posting_tracks pre st term tweet_id Hst) as (st' & ? & ? & _).
  exists st'. split; [done|]. by destruct term.
Qed.

Lemma index2_tracks lower isalnum rows self pre :
  tracks pre self →
  ∃ self', Assignment2.index lower isalnum self rows = Ok self'
    ∧ tracks (pre ++ insertions (λ word, Assignment2.normalize lower isalnum
                                           word false) true rows)
             self'.
Proof.
  intros Ht. unfold Assignment2.index, insertions.
  apply (for_each_events tracks); [|done].
  clear. intros pre st [tweet_id words] Hst. unfold Assignment2.index_row.
  cbn [fst snd].
  apply (for_each_events tracks); [|done].
  clear. intros pre st term Hst.
  destruct term as [|c term'].
  - exists st. split; [done|]. simpl. by rewrite app_nil_r.
  - unfold Assignment2.index_term.
    match goal with |- context [add_posting ?x _ _] => set (st1 := x) end.
    destruct (add_posting_tracks pre st1 (c :: term') tweet_id) as (st' & ? & ? & _);
      [by apply tracks_permuterm_index|].
    by exists st'.
Qed.

Lemma new_index_tracks : tracks [] new_index.
Proof.
  destruct new_index_consistent as [Hc Hp]. split_and!; [done..| | |].
  - split_and!; simpl.
    + by rewrite map_size_empty.
    + intros p. rewrite lookup_empty. split; [by intros [? ?]|lia].
    + intros t td. by rewrite lookup_empty.
  - intros t. unfold postings_of. simpl. by rewrite lookup_empty.
  - intros t. simpl. rewrite dom_empty_L. set_solver.
Qed.

Lemma elem_of_push_document chain d x :
  x ∈ push_document chain d ↔ x = d ∨ x ∈ chain.
Proof.
  unfold push_document. destruct chain as [|y chain]; [set_solver|].
  destruct (decide (y = d)) as [->|?]; set_solver.
Qed.

Lemma elem_of_chain_after ids x : x ∈ chain_after ids ↔ x ∈ ids.
Proof.
  induction ids as [|d ids IH] using rev_ind.
  - done.
  - rewrite chain_after_snoc, elem_of_push_document, IH. set_solver.
Qed.

Lemma elem_of_inserted_ids events t d :
  d ∈ inserted_ids events t ↔ (t, d) ∈ events.
Proof.
  unfold inserted_ids. rewrite list_elem_of_fmap. split.
  - intros ([t' d'] & -> & [Ht ?]%list_elem_of_filter). simpl in *. by subst.
  - intros Hin. exists (t, d). split; [done|].
    by apply list_elem_of_filter.
Qed.

Lemma elem_of_token_insertion skip tweet_id term t d :
  (t, d) ∈ token_insertion skip tweet_id term ↔
  t = term ∧ d = tweet_id ∧ (skip = true → term ≠ []).
Proof.
  unfold token_insertion. destruct term as [|c term'].
  - destruct skip.
    + split; [by intros ?%elem_of_nil|]. intros (_ & _ & H). by destruct H.
    + rewrite list_elem_of_singleton. naive_solver.
  - rewrite list_elem_of_singleton. naive_solver.
Qed.

Lemma elem_of_insertions normalize skip rows t d :
  (t, d) ∈ insertions normalize skip rows ↔
  (skip = true → t ≠ [])
  ∧ ∃ words word, (d, words) ∈ rows ∧ word ∈ words ∧ normalize word = t.
Proof.
  unfold insertions. rewrite list_elem_of_bind. split.
  - intros ([id words] & Hin & Hrow). simpl in Hin.
    apply list_elem_of_bind in Hin as (term & Hins & Hterm).
    apply elem_of_token_insertion in Hins as (-> & -> & Hskip).
    apply list_elem_of_fmap in Hterm as (word & -> & Hword).
    split; [done|]. by exists words, word.
  - intros (Hskip & words & word & Hrow & Hword & <-).
    exists (d, words). split; [|done]. simpl.
    apply list_elem_of_bind. exists (normalize word). split.
    + by apply elem_of_token_insertion.
    + apply list_elem_of_fmap. by exists word.
Qed.

Lemma tracks_indexes normalize skip rows self :
  tracks (insertions normalize skip rows) self →
  indexes normalize skip rows self.
Proof.
  intros (_ & _ & _ & Hpo & Hdom). split_and!.
  - done.
  - intros t d.
    by rewrite Hpo, elem_of_chain_after, elem_of_inserted_ids,
      elem_of_insertions.
  - intros t. rewrite Hdom, list_elem_of_fmap. split.
    + intros ([t' d] & -> & Hin). simpl.
      apply elem_of_insertions in Hin as (? & words & word & ?).
      split; [done|]. by exists d, words, word.
    + intros (Hskip & d & words & word & Hin). exists (t, d). split; [done|].
      apply elem_of_insertions. split; [done|]. by exists words, word.
Qed.

(** X1.  The index that either program builds holds the rows it was given:
    the chain of a term is what pushing the documents of its occurrences, in
    order, leaves; a document is on the chain exactly when one of its words
    normalizes to the term; and the dictionary has exactly the terms that
    occur (assignment 2: the non-empty ones). *)
Theorem index_holds_rows (lower : str → str) (isalnum : ascii → bool)
    (rows : list (str * list str)) :
  (∃ self, Assignment1.index lower isalnum new_index rows = Ok self
           ∧ indexes (Assignment1.normalize lower isalnum) false rows self)
  ∧ (∃ self, Assignment2.index lower isalnum new_index rows = Ok self
             ∧ indexes (λ word, Assignment2.normalize lower isalnum word false)
                       true rows self).
Proof.
  split.
  - destruct (index1_tracks lower isalnum rows new_index [] new_index_tracks)
      as (self & ? & ?).
    exists self. split; [done|]. by apply tracks_indexes.
  - destruct (index2_tracks lower isalnum rows new_index [] new_index_tracks)
      as (self & ? & ?).
    exists self. split; [done|]. by apply tracks_indexes.
Qed.

(** X2.  In the index that either program builds the pointers are the
    numbers below [posting_id_counter], each the pointer of one term; there
    are as many terms as the counter says, every pointer leads to a chain,
    and the first component of an entry is its key. *)
Theorem index_pointers_dense (lower : str → str) (isalnum : ascii → bool)
    (rows : list (str * list str)) :
  (∃ self, Assignment1.index lower isalnum new_index rows = Ok self
           ∧ pointers_dense self ∧ pointers_fresh self)
  ∧ (∃ self, Assignment2.index lower isalnum new_index rows = Ok self
             ∧ pointers_dense self ∧ pointers_fresh self).
Proof.
  split.
  - destruct (index1_tracks lower isalnum rows new_index [] new_index_tracks)
      as (self & ? & (_ & ? & ? & _)).
    by exists self.
  - destruct (index2_tracks lower isalnum rows new_index [] new_index_tracks)
      as (self & ? & (_ & ? & ? & _)).
    by exists self.
Qed.

(** *** Rows with pairwise distinct document IDs *)

Lemma foldl_push_same d chain ids :
  Forall (.= d) ids → foldl push_document (d :: chain) ids = d :: chain.
Proof.
  induction 1 as [|x ids -> _ IH]; [done|]. simpl.
  by rewrite decide_True.
Qed.

Lemma chain_after_same pre ids d :
  Forall (.= d) ids → ids ≠ [] → d ∉ pre →
  chain_after (pre ++ ids) = d :: chain_after pre.
Proof.
  intros Hall Hne Hd. unfold chain_after. rewrite foldl_app.
  destruct Hall as [|x ids -> Hall]; [by destruct Hne|]. simpl.
  assert (push_document (foldl push_document [] pre) d
          = d :: foldl push_document [] pre) as ->.
  { destruct (foldl push_document [] pre) as [|y c] eqn:E; [done|].
    cbn [push_document].
    rewrite decide_False; [done|]. intros ->. apply Hd.
    apply elem_of_chain_after. unfold chain_after. rewrite E. by left. }
  by apply foldl_push_same.
Qed.

Lemma inserted_ids_row normalize skip (row : str * list str) t :
  (skip = true → t ≠ []) →
  Forall (.= row.1)
    (inserted_ids ((normalize <$> row.2) ≫= token_insertion skip row.1) t)
  ∧ (inserted_ids ((normalize <$> row.2) ≫= token_insertion skip row.1) t ≠ []
     ↔ t ∈ normalize <$> row.2).
Proof.
  intros Hskip. split.
  - apply Forall_forall. intros d Hd%elem_of_inserted_ids.
    apply list_elem_of_bind in Hd as (term & Hd & _).
    by apply elem_of_token_insertion in Hd as (_ & -> & _).
  - split.
    + intros Hne.
      destruct (inserted_ids _ t) as [|d l] eqn:E; [done|].
      assert (d ∈ inserted_ids
                ((normalize <$> row.2) ≫= token_insertion skip row.1) t)
        as Hd%elem_of_inserted_ids by (rewrite E; by left).
      apply list_elem_of_bind in Hd as (term & Hd & Hterm).
      by apply elem_of_token_insertion in Hd as (-> & _ & _).
    + intros Hin Hnil.
      assert (row.1 ∈ inserted_ids
                ((normalize <$> row.2) ≫= token_insertion skip row.1) t)
        as Hd; [|by rewrite Hnil in Hd; apply elem_of_nil in Hd].
      apply elem_of_inserted_ids, list_elem_of_bind. exists t.
      split; [|done]. by apply elem_of_token_insertion.
Qed.

Lemma insertions_snoc normalize skip rows row :
  insertions normalize skip (rows ++ [row])
  = insertions normalize skip rows
    ++ (normalize <$> row.2) ≫= token_insertion skip row.1.
Proof. unfold insertions. rewrite bind_app. simpl. by rewrite app_nil_r. Qed.

Lemma chain_after_distinct_rows normalize skip rows t :
  (skip = true → t ≠ []) → NoDup rows.*1 →
  chain_after (inserted_ids (insertions normalize skip rows) t)
  = reverse (filter (λ row, t ∈ normalize <$> row.2) rows).*1.
Proof.
  intros Hskip. induction rows as [|row rows IH] using rev_ind; intros Hnd.
  - done.
  - rewrite fmap_app in Hnd. apply NoDup_app in Hnd as (Hnd & Hother & _).
    rewrite insertions_snoc, inserted_ids_app, filter_app, fmap_app,
      reverse_app.
    destruct (inserted_ids_row normalize skip row t Hskip) as [Hall Hiff].
    rewrite filter_cons, filter_nil.
    destruct (decide (t ∈ normalize <$> row.2)) as [Hin|Hin].
    + rewrite chain_after_same with (d := row.1); [|done|by apply Hiff|].
      * simpl. by rewrite IH.
      * intros Hd%elem_of_inserted_ids%elem_of_insertions.
        destruct Hd as (_ & words & word & Hrow & _).
        apply (Hother row.1); [|simpl; by left].
        apply list_elem_of_fmap. by exists (row.1, words).
    + assert (inserted_ids
                ((normalize <$> row.2) ≫= token_insertion skip row.1) t = [])
        as ->.
      { destruct (decide (inserted_ids
                  ((normalize <$> row.2) ≫= token_insertion skip row.1) t = []))
          as [E|E]; [done|].
        destruct Hin. by apply Hiff. }
      rewrite app_nil_r. simpl. by rewrite IH.
Qed.

Lemma size_eq_length_postings_of self t term_data :
  counters_exact self → dictionary self !! t = Some term_data →
  td_size term_data = length (postings_of self t).
Proof.
  intros Hc Ht. destruct (Hc t term_data Ht) as (head & Hh & -> & _).
  unfold postings_of. by rewrite Ht, Hh.
Qed.

Lemma first_occurrences_NoDup l : NoDup l → first_occurrences l = l.
Proof.
  induction 1 as [|x l Hx _ IH]; [done|]. simpl. rewrite IH. f_equal.
  apply filter_all. intros y Hy ->. done.
Qed.

Lemma documents_of_rows_NoDup (P : str * list str → Prop)
    `{!∀ row, Decision (P row)} (rows : list (str * list str)) :
  NoDup rows.*1 → NoDup (reverse (filter P rows).*1).
Proof.
  intros Hnd. rewrite reverse_Permutation.
  eapply sublist_NoDup; [exact Hnd|].
  apply fmap_sublist, sublist_filter.
Qed.

Lemma document_frequency (self : InvertedIndex) (t : str) (docs : list str) :
  counters_exact self → NoDup (reverse docs) →
  postings_of self t = reverse docs →
  ∀ term_data head,
    dictionary self !! t = Some term_data →
    postings_lists self !! td_pointer term_data = Some head →
    td_size term_data = length docs
    ∧ postings_list_iterator head = reverse docs.
Proof.
  intros Hc Hnd Heq td head Htd Hh.
  rewrite (size_eq_length_postings_of self t td Hc Htd), Heq, length_reverse.
  split; [done|].
  rewrite postings_list_iterator_first_occurrences.
  unfold postings_of in Heq. rewrite Htd, Hh in Heq. rewrite Heq.
  by apply first_occurrences_NoDup.
Qed.

(** X3.  When the rows carry pairwise distinct document IDs, the chain of a
    term lists the documents that contain it, the latest row first and each
    once, the iterator yields this very list, and the counter of the entry
    is the number of these documents. *)
Theorem index_document_frequency (lower : str → str) (isalnum : ascii → bool)
    (rows : list (str * list str)) :
  NoDup rows.*1 →
  (∃ self, Assignment1.index lower isalnum new_index rows = Ok self
     ∧ ∀ t, let docs :=
              (filter (λ row, t ∈ Assignment1.normalize lower isalnum <$> row.2)
                      rows).*1 in
            postings_of self t = reverse docs
            ∧ ∀ term_data head,
                dictionary self !! t = Some term_data →
                postings_lists self !! td_pointer term_data = Some head →
                td_size term_data = length docs
                ∧ postings_list_iterator head = reverse docs)
  ∧ (∃ self, Assignment2.index lower isalnum new_index rows = Ok self
       ∧ ∀ t, t ≠ [] →
            let docs :=
              (filter (λ row, t ∈ (λ word, Assignment2.normalize lower isalnum
                                            word false) <$> row.2)
                      rows).*1 in
            postings_of self t = reverse docs
            ∧ ∀ term_data head,
                dictionary self !! t = Some term_data →
                postings_lists self !! td_pointer term_data = Some head →
                td_size term_data = length docs
                ∧ postings_list_iterator head = reverse docs).
Proof.
  intros Hnd. split.
  - destruct (index1_tracks lower isalnum rows new_index [] new_index_tracks)
      as (self & ? & (Hc & _ & _ & Hpo & _)).
    exists self. split; [done|]. intros t docs.
    assert (postings_of self t = reverse docs) as Heq.
    { rewrite Hpo. by apply chain_after_distinct_rows. }
    split; [done|]. apply document_frequency; [done| |done].
    by apply documents_of_rows_NoDup.
  - destruct (index2_tracks lower isalnum rows new_index [] new_index_tracks)
      as (self & ? & (Hc & _ & _ & Hpo & _)).
    exists self. split; [done|]. intros t Ht docs.
    assert (postings_of self t = reverse docs) as Heq.
    { rewrite Hpo. by apply chain_after_distinct_rows. }
    split; [done|]. apply document_frequency; [done| |done].
    by apply documents_of_rows_NoDup.
Qed.

(** ** The permuterm index *)

Lemma register_permuterm_inhabited (term : str) (pidx : gmap str (gset str))
    (permuterm : str) :
  (∀ k ts, pidx !! k = Some ts → ts ≠ ∅) →
  ∀ k ts, Assignment2.register_permuterm term pidx permuterm !! k = Some ts →
          ts ≠ ∅.
Proof.
  intros Hin k ts. unfold Assignment2.register_permuterm.
  destruct (pidx !! permuterm) as [terms|] eqn:E;
    (destruct (decide (k = permuterm)) as [->|Hne];
     [rewrite lookup_insert_eq; intros [= <-]; set_solver
     |rewrite lookup_insert_ne by done; apply Hin]).
Qed.

Lemma foldl_register_permuterm_inhabited (term : str) (permuterms : list str)
    (pidx : gmap str (gset str)) :
  (∀ k ts, pidx !! k = Some ts → ts ≠ ∅) →
  ∀ k ts,
    foldl (Assignment2.register_permuterm term) pidx permuterms !! k = Some ts →
    ts ≠ ∅.
Proof.
  revert pidx. induction permuterms as [|p ps IH]; intros pidx Hin; [done|].
  simpl. apply IH. by apply register_permuterm_inhabited.
Qed.

Lemma index2_inhabited lower isalnum rows (self : InvertedIndex) :
  Assignment2.index lower isalnum new_index rows = Ok self →
  ∀ k ts, permuterm_index self !! k = Some ts → ts ≠ ∅.
Proof.
  intros Hindex.
  pose (I := λ st : InvertedIndex,
          counters_exact st ∧ pointers_fresh st
          ∧ ∀ k ts, permuterm_index st !! k = Some ts → ts ≠ ∅).
  destruct (for_each_invariant I (Assignment2.index_row lower isalnum) rows
              new_index) as (self' & Hrun & _ & _ & Hin).
  - clear. intros st [tweet_id words] Hst. unfold Assignment2.index_row.
    apply for_each_invariant; [|done].
    clear. intros st term (Hc & Hp & Hin).
    destruct term as [|c term']; [by exists st|].
    unfold Assignment2.index_term.
    match goal with |- context [add_posting ?x _ _] => set (st1 := x) end.
    destruct (add_posting_consistent st1 (c :: term') tweet_id Hc Hp)
      as (st' & Hrun & Hc' & Hp' & Hpi & _).
    exists st'. split; [done|]. split_and!; [done..|].
    rewrite Hpi. unfold st1. cbn [permuterm_index].
    by apply foldl_register_permuterm_inhabited.
  - destruct new_index_consistent. split_and!; [done..|].
    intros k ts. simpl. by rewrite lookup_empty.
  - unfold Assignment2.index in Hindex.
    assert (self' = self) as -> by congruence. done.
Qed.

(** X4.  The permuterm index that [index] builds has exactly the rotations
    of the dictionary terms as keys, and the set kept for a key is not empty
    and holds exactly the dictionary terms that have the key as a
    rotation. *)
Theorem permuterm_index_exact (lower : str → str) (isalnum : ascii → bool)
    (rows : list (str * list str)) (self : InvertedIndex) :
  Assignment2.index lower isalnum new_index rows = Ok self →
  (∀ permuterm,
     is_Some (permuterm_index self !! permuterm) ↔
     ∃ term, term ∈ dom (dictionary self)
             ∧ permuterm ∈ Assignment2.generate_permuterms term)
  ∧ (∀ permuterm terms,
       permuterm_index self !! permuterm = Some terms →
       terms ≠ ∅
       ∧ ∀ term, term ∈ terms ↔
                 term ∈ dom (dictionary self)
                 ∧ permuterm ∈ Assignment2.generate_permuterms term).
Proof.
  intros Hindex.
  pose proof (index2_inhabited lower isalnum rows self Hindex) as Hin.
  destruct (index2_built lower isalnum rows new_index (new_index_built isalnum))
    as (self' & Hindex' & _ & _ & Hr & _).
  assert (self' = self) as -> by congruence.
  split.
  - intros k. split.
    + intros [ts Hk]. pose proof (Hin k ts Hk) as Hne.
      apply set_choose_L in Hne as [t Ht]. exists t. apply Hr. by exists ts.
    + intros (t & Ht). apply Hr in Ht as (ts & Hk & _). by exists ts.
  - intros k ts Hk. split; [by eapply Hin|]. intros t. rewrite <- (Hr k t).
    unfold registered. rewrite Hk. naive_solver.
Qed.

(** X5.  Wildcard expansion at its edges, on an index that [index] has
    built: a lone [*] gives all dictionary terms, [A*] the terms that start
    with [A], [*B] the terms that end with [B]; whatever the wildcard term,
    only dictionary terms come back; and a term without [*] comes back as it
    is, indexed or not. *)
Theorem expand_wildcard_edges (lower : str → str) (isalnum : ascii → bool)
    (rows : list (str * list str)) (self : InvertedIndex) :
  isalnum dollar = false →
  Assignment2.index lower isalnum new_index rows = Ok self →
  Assignment2.expand_wildcard self [star] = dom (dictionary self)
  ∧ (∀ A t : str, star ∉ A →
       t ∈ Assignment2.expand_wildcard self (A ++ [star]) ↔
       t ∈ dom (dictionary self) ∧ A `prefix_of` t)
  ∧ (∀ B t : str,
       t ∈ Assignment2.expand_wildcard self (star :: B) ↔
       t ∈ dom (dictionary self) ∧ B `suffix_of` t)
  ∧ (∀ term t : str, star ∈ term →
       t ∈ Assignment2.expand_wildcard self term → t ∈ dom (dictionary self))
  ∧ (∀ term : str, star ∉ term →
       Assignment2.expand_wildcard self term = {[term]}).
Proof.
  intros Hd Hindex.
  destruct (index2_built lower isalnum rows new_index (new_index_built isalnum))
    as (self' & Hindex' & Hb).
  assert (self' = self) as -> by congruence.
  split_and!.
  - apply set_eq. intros t.
    rewrite (expand_wildcard_built isalnum self [] [] t Hd Hb);
      [|apply not_elem_of_nil].
    split; [tauto|]. intros Ht. split_and!; [done|apply prefix_nil| |simpl; lia].
    apply suffix_nil.
  - intros A t HA.
    rewrite (expand_wildcard_built isalnum self A [] t Hd Hb HA).
    split; [tauto|]. intros [Ht HAt]. split_and!; [done..|apply suffix_nil|].
    apply prefix_length in HAt. simpl. lia.
  - intros B t.
    rewrite (expand_wildcard_built isalnum self [] B t Hd Hb);
      [|apply not_elem_of_nil].
    split; [tauto|]. intros [Ht HBt]. split_and!; [done|apply prefix_nil|done|].
    apply suffix_length in HBt. simpl. lia.
  - intros term t Hstar Hin.
    destruct (Assignment2.find_star term) as [i|] eqn:Hfind.
    + apply find_star_Some in Hfind as (A & B & -> & HA & _).
      apply (expand_wildcard_built isalnum self A B t Hd Hb HA) in Hin.
      tauto.
    + by apply find_star_None in Hfind.
  - intros term Hstar. unfold Assignment2.expand_wildcard.
    by rewrite (proj2 (find_star_None term) Hstar).
Qed.

(** ** [intersect] on arbitrary lists *)

Lemma intersect_sublist_l list1 list2 : intersect list1 list2 `sublist_of` list1.
Proof.
  revert list2. induction list1 as [|x rest1 IH1]; intros list2.
  { by rewrite intersect_nil_l. }
  induction list2 as [|y rest2 IH2].
  { rewrite intersect_nil_r. apply sublist_nil_l. }
  rewrite intersect_cons. destruct (decide (x = y)).
  - by apply sublist_skip.
  - destruct (str_ltb x y); [|done]. by apply sublist_cons.
Qed.

Lemma intersect_sublist_r list1 list2 : intersect list1 list2 `sublist_of` list2.
Proof.
  revert list2. induction list1 as [|x rest1 IH1]; intros list2.
  { rewrite intersect_nil_l. apply sublist_nil_l. }
  induction list2 as [|y rest2 IH2].
  { by rewrite intersect_nil_r. }
  rewrite intersect_cons. destruct (decide (x = y)) as [->|].
  - by apply sublist_skip.
  - destruct (str_ltb x y); [done|]. by apply sublist_cons.
Qed.

(** X6.  Whatever the two lists, sorted or not, [intersect] returns a
    subsequence of each of them: it invents no element, repeats none more
    often than either list has it, and keeps the order of both.  A list
    intersected with itself comes back unchanged. *)
Theorem intersect_subsequence (list1 list2 : list str) :
  intersect list1 list2 `sublist_of` list1
  ∧ intersect list1 list2 `sublist_of` list2
  ∧ length (intersect list1 list2) ≤ length list1 `min` length list2
  ∧ intersect list1 list1 = list1.
Proof.
  split_and!.
  - apply intersect_sublist_l.
  - apply intersect_sublist_r.
  - pose proof (sublist_length _ _ (intersect_sublist_l list1 list2)).
    pose proof (sublist_length _ _ (intersect_sublist_r list1 list2)).
    lia.
  - induction list1 as [|x rest IH]; [done|].
    rewrite intersect_cons, decide_True by done. by rewrite IH.
Qed.

Lemma intersect_StronglySorted list1 list2 :
  StronglySorted str_lt list1 → StronglySorted str_lt list2 →
  StronglySorted str_lt (intersect list1 list2)
  ∧ ∀ x, x ∈ intersect list1 list2 ↔ x ∈ list1 ∧ x ∈ list2.
Proof.
  intros H1 H2. rewrite intersect_filter by done. split.
  - by apply StronglySorted_filter.
  - intros x. rewrite list_elem_of_filter. tauto.
Qed.

(** X7.  On sorted duplicate-free lists [intersect] is commutative and
    associative. *)
Theorem intersect_comm_assoc (list1 list2 list3 : list str) :
  Sorted str_lt list1 → Sorted str_lt list2 → Sorted str_lt list3 →
  intersect list1 list2 = intersect list2 list1
  ∧ intersect (intersect list1 list2) list3
    = intersect list1 (intersect list2 list3).
Proof.
  intros H1%Sorted_StronglySorted H2%Sorted_StronglySorted
         H3%Sorted_StronglySorted; [|apply _..].
  destruct (intersect_StronglySorted list1 list2 H1 H2) as [S12 E12].
  destruct (intersect_StronglySorted list2 list1 H2 H1) as [S21 E21].
  destruct (intersect_StronglySorted list2 list3 H2 H3) as [S23 E23].
  destruct (intersect_StronglySorted _ list3 S12 H3) as [Sl El].
  destruct (intersect_StronglySorted list1 _ H1 S23) as [Sr Er].
  split; apply StronglySorted_lt_ext; try done.
  - intros x. rewrite E12, E21. tauto.
  - intros x. rewrite El, Er, E12, E23. tauto.
Qed.

(** ** What [query] answers *)

Lemma elem_of_postings_of (self : InvertedIndex) (term d : str) :
  d ∈ postings_of self term ↔
  ∃ term_data head,
    dictionary self !! term = Some term_data
    ∧ postings_lists self !! td_pointer term_data = Some head
    ∧ d ∈ chain_ids head.
Proof.
  unfold postings_of. split.
  - destruct (dictionary self !! term) as [td|]; [|by intros ?%elem_of_nil].
    destruct (postings_lists self !! td_pointer td) as [head|] eqn:Hh;
      [|by intros ?%elem_of_nil].
    intros Hd. by exists td, head.
  - intros (td & head & Htd & Hh & Hd). by rewrite Htd, Hh.
Qed.

Lemma union_postings_docs (self : InvertedIndex) (terms : gset str) :
  counters_exact self →
  ∃ term_postings,
    Assignment2.union_postings self terms = Ok term_postings
    ∧ ∀ d, d ∈ term_postings ↔ ∃ c, c ∈ terms ∧ d ∈ postings_of self c.
Proof.
  intros Hc. destruct (union_postings_total self terms Hc) as (ps & Hps & Hin).
  exists ps. split; [done|]. intros d. rewrite Hin.
  setoid_rewrite elem_of_postings_of. naive_solver.
Qed.

Lemma sorted_elements (X : gset str) :
  Sorted str_lt (sorted (elements X))
  ∧ ∀ d, d ∈ sorted (elements X) ↔ d ∈ X.
Proof.
  split.
  - apply sorted_NoDup_Sorted, NoDup_elements.
  - intros d. unfold sorted. rewrite merge_sort_Permutation.
    apply elem_of_elements.
Qed.

Lemma gather2_cases (self : InvertedIndex) (groups : list (gset str))
    (acc : list (list str)) :
  counters_exact self →
  (Assignment2.gather self groups acc = Ok None
   ∧ ∃ g, g ∈ groups ∧ ∀ d c, c ∈ g → d ∉ postings_of self c)
  ∨ (∃ lists,
       Assignment2.gather self groups acc = Ok (Some (acc ++ lists))
       ∧ Forall2 (λ (g : gset str) l,
                    Sorted str_lt l
                    ∧ ∀ d, d ∈ l ↔ ∃ c, c ∈ g ∧ d ∈ postings_of self c)
                 groups lists).
Proof.
  intros Hc. revert acc.
  induction groups as [|g rest IH]; intros acc; cbn [Assignment2.gather].
  { right. exists []. by rewrite app_nil_r. }
  destruct (union_postings_docs self g Hc) as (ps & -> & Hps). cbn [bind].
  destruct (decide (ps = ∅)) as [->|Hne].
  - left. split; [done|]. exists g. split; [by left|].
    intros d c Hcg Hd. apply (not_elem_of_empty (C := gset str) d).
    apply Hps. by exists c.
  - destruct (IH (acc ++ [sorted (elements ps)]))
      as [[-> (g' & Hg' & Hno)]|(lists & -> & Hall)].
    + left. split; [done|]. exists g'. split; [by right|done].
    + right. exists (sorted (elements ps) :: lists).
      split; [by rewrite <- (assoc_L (++))|].
      constructor; [|done].
      destruct (sorted_elements ps) as [Hs Hin].
      split; [done|]. intros d. by rewrite Hin.
Qed.

Lemma expand_all_None_inv (self : InvertedIndex) (normalized_terms : list str)
    (acc : list (gset str)) :
  Assignment2.expand_all self normalized_terms acc = None →
  ∃ term, term ∈ normalized_terms ∧ candidate_terms self term = ∅.
Proof.
  revert acc. induction normalized_terms as [|t rest IH]; intros acc;
    cbn [Assignment2.expand_all]; [done|].
  destruct (decide (star ∈ t)) as [Hstar|Hstar].
  - destruct (decide (Assignment2.expand_wildcard self t = ∅)) as [He|He].
    + intros _. exists t. split; [by left|].
      unfold candidate_terms. by rewrite decide_True.
    + intros (t' & ? & ?)%IH. exists t'. split; [by right|done].
  - intros (t' & ? & ?)%IH. exists t'. split; [by right|done].
Qed.

Lemma Forall2_elem_of_lists {A} (Q : A → str → Prop) (groups : list A)
    (lists : list (list str)) (R : list str → Prop) d :
  Forall2 (λ g l, R l ∧ ∀ d, d ∈ l ↔ Q g d) groups lists →
  Forall (d ∈.) lists ↔ Forall (λ g, Q g d) groups.
Proof.
  induction 1 as [|g l groups lists [_ Hl] _ IH]; [done|].
  by rewrite !Forall_cons, IH, Hl.
Qed.

Lemma Forall2_lists_R {A} (Q : A → str → Prop) (groups : list A)
    (lists : list (list str)) (R : list str → Prop) :
  Forall2 (λ g l, R l ∧ ∀ d, d ∈ l ↔ Q g d) groups lists → Forall R lists.
Proof. induction 1 as [|g l groups lists [Hl _] _ IH]; by constructor. Qed.

Lemma query2_spec lower isalnum (self : InvertedIndex) (terms : list str) :
  counters_exact self → terms ≠ [] →
  ∃ r, Assignment2.query lower isalnum self terms = Ok r
       ∧ StronglySorted str_lt r
       ∧ ∀ d, d ∈ r ↔
              ∀ q, q ∈ terms →
                   ∃ c, c ∈ candidate_terms self
                              (Assignment2.normalize lower isalnum q true)
                        ∧ d ∈ postings_of self c.
Proof.
  intros Hc Hne. unfold Assignment2.query.
  set (nts := (λ term, Assignment2.normalize lower isalnum term true) <$> terms).
  destruct (expand_all_cases self nts []) as [Hex|Hex]; rewrite Hex.
  { exists []. split; [done|]. split; [constructor|]. intros d.
    split; [by intros ?%elem_of_nil|]. intros Hall.
    apply expand_all_None_inv in Hex as (nt & Hnt & Hempty).
    apply list_elem_of_fmap in Hnt as (q & -> & Hq).
    destruct (Hall q Hq) as (c & Hcand & _). rewrite Hempty in Hcand.
    by apply not_elem_of_empty in Hcand. }
  rewrite app_nil_l.
  change (λ term, if decide (star ∈ term)
                  then Assignment2.expand_wildcard self term else {[term]})
    with (candidate_terms self).
  destruct (gather2_cases self (candidate_terms self <$> nts) [] Hc)
    as [[-> (g & Hg & Hno)]|(lists & -> & Hall)]; cbn [bind].
  { exists []. split; [done|]. split; [constructor|]. intros d.
    split; [by intros ?%elem_of_nil|]. intros Hq.
    apply list_elem_of_fmap in Hg as (nt & -> & Hnt).
    apply list_elem_of_fmap in Hnt as (q & -> & Hin).
    destruct (Hq q Hin) as (c & Hcand & Hd). by destruct (Hno d c). }
  rewrite app_nil_l.
  assert (lists ≠ []) as Hlists.
  { intros ->. apply Forall2_nil_inv_r in Hall.
    apply fmap_nil_inv in Hall. apply fmap_nil_inv in Hall. done. }
  assert (Forall (StronglySorted str_lt) lists) as Hsorted.
  { apply Forall2_lists_R in Hall as Hs. eapply Forall_impl; [exact Hs|].
    intros l. apply Sorted_StronglySorted, _. }
  destruct (intersect_all_common true lists Hlists Hsorted)
    as (r & -> & Hr & Hin).
  exists r. split; [done|]. split; [done|]. intros d.
  rewrite Hin, (Forall2_elem_of_lists _ _ _ _ d Hall).
  unfold nts. rewrite <- list_fmap_compose, Forall_fmap, Forall_forall.
  done.
Qed.

(** X8.  On an index that [index] has built, [query] with at least one term
    raises nothing and returns a sorted list without duplicates.  A document
    is in it exactly when, for every term of the query, it is on the chain
    of one of the candidate terms of that term: the term itself, normalized,
    or the expansions of its wildcard. *)
Theorem query2_answers (lower : str → str) (isalnum : ascii → bool)
    (rows : list (str * list str)) (self : InvertedIndex) (terms : list str) :
  Assignment2.index lower isalnum new_index rows = Ok self →
  terms ≠ [] →
  ∃ r, Assignment2.query lower isalnum self terms = Ok r
       ∧ Sorted str_lt r ∧ NoDup r
       ∧ ∀ d, d ∈ r ↔
              ∀ q, q ∈ terms →
                   ∃ c, c ∈ candidate_terms self
                              (Assignment2.normalize lower isalnum q true)
                        ∧ d ∈ postings_of self c.
Proof.
  intros Hindex Hne.
  destruct (index2_built lower isalnum rows new_index (new_index_built isalnum))
    as (self' & Hindex' & Hc & _).
  assert (self' = self) as -> by congruence.
  destruct (query2_spec lower isalnum self terms Hc Hne) as (r & ? & Hr & ?).
  exists r. split_and!; [done| | |done].
  - by apply StronglySorted_Sorted.
  - by apply StronglySorted_lt_NoDup.
Qed.

(** X9.  The answer of [query] depends on the set of its terms only:
    reordering or repeating terms changes nothing, and more terms give a
    sublist of the answer. *)
Theorem query2_terms_as_set (lower : str → str) (isalnum : ascii → bool)
    (rows : list (str * list str)) (self : InvertedIndex)
    (terms terms' : list str) :
  Assignment2.index lower isalnum new_index rows = Ok self →
  terms ≠ [] →
  (∀ q, q ∈ terms → q ∈ terms') →
  ∃ r r', Assignment2.query lower isalnum self terms = Ok r
          ∧ Assignment2.query lower isalnum self terms' = Ok r'
          ∧ r' `sublist_of` r
          ∧ ((∀ q, q ∈ terms' → q ∈ terms) → r' = r).
Proof.
  intros Hindex Hne Hsub.
  destruct (index2_built lower isalnum rows new_index (new_index_built isalnum))
    as (self' & Hindex' & Hc & _).
  assert (self' = self) as -> by congruence.
  assert (terms' ≠ []) as Hne'.
  { destruct terms as [|q ?]; [done|]. intros ->.
    by apply (not_elem_of_nil q), Hsub; left. }
  destruct (query2_spec lower isalnum self terms Hc Hne) as (r & Hq & Hr & Hin).
  destruct (query2_spec lower isalnum self terms' Hc Hne')
    as (r' & Hq' & Hr' & Hin').
  exists r, r'. split_and!; [done..| |].
  - assert (r' = filter (.∈ r') r) as ->.
    { apply StronglySorted_lt_ext; [done|by apply StronglySorted_filter|].
      intros d. rewrite list_elem_of_filter. split; [|tauto].
      intros Hd. split; [done|]. apply Hin. intros q Hq0.
      apply (proj1 (Hin' d) Hd). by apply Hsub. }
    apply sublist_filter.
  - intros Hsup. apply StronglySorted_lt_ext; [done..|].
    intros d. rewrite Hin, Hin'. split; intros H q Hq0; apply H; auto.
Qed.

(** *** Assignment 1 *)

Lemma sorted_iterator (head : option Posting) :
  Sorted str_lt (sorted (postings_list_iterator head))
  ∧ ∀ d, d ∈ sorted (postings_list_iterator head) ↔ d ∈ chain_ids head.
Proof.
  rewrite postings_list_iterator_first_occurrences. split.
  - apply sorted_NoDup_Sorted, NoDup_first_occurrences.
  - intros d. unfold sorted.
    by rewrite merge_sort_Permutation, elem_of_first_occurrences.
Qed.

Lemma gather1_cases (self : InvertedIndex) (normalized_terms : list str)
    (acc : list (list str)) :
  counters_exact self →
  (∃ term, Assignment1.gather self normalized_terms acc = Ok (inl term)
           ∧ term ∈ normalized_terms ∧ dictionary self !! term = None)
  ∨ (∃ lists,
       Assignment1.gather self normalized_terms acc = Ok (inr (acc ++ lists))
       ∧ Forall (λ term, term ∈ dom (dictionary self)) normalized_terms
       ∧ Forall2 (λ (term : str) l,
                    Sorted str_lt l
                    ∧ ∀ d, d ∈ l ↔ d ∈ postings_of self term)
                 normalized_terms lists).
Proof.
  intros Hc. revert acc.
  induction normalized_terms as [|t rest IH]; intros acc;
    cbn [Assignment1.gather].
  { right. exists []. by rewrite app_nil_r. }
  destruct (dictionary self !! t) as [td|] eqn:Ht.
  - destruct (Hc t td Ht) as (head & Hh & _).
    rewrite (subscript_Some _ _ _ Hh). cbn [bind].
    destruct (IH (acc ++ [sorted (postings_list_iterator head)]))
      as [(t' & -> & ? & ?)|(lists & -> & Hdom & Hall)].
    + left. exists t'. split_and!; [done|by right|done].
    + right. exists (sorted (postings_list_iterator head) :: lists).
      split; [by rewrite <- (assoc_L (++))|]. split.
      * constructor; [by eapply elem_of_dom_2|done].
      * constructor; [|done]. destruct (sorted_iterator head) as [Hs Hin].
        split; [done|]. intros d. rewrite Hin. unfold postings_of.
        by rewrite Ht, Hh.
  - left. exists t. split_and!; [done|by left|done].
Qed.

Lemma query1_spec lower isalnum (self : InvertedIndex) (terms : list str) :
  counters_exact self → terms ≠ [] →
  ∃ r, Assignment1.returned (Assignment1.query lower isalnum self terms) = Ok r
       ∧ StronglySorted str_lt r
       ∧ (∀ d, d ∈ r ↔
               ∀ q, q ∈ terms →
                    d ∈ postings_of self (Assignment1.normalize lower isalnum q))
       ∧ (Assignment1.printed (Assignment1.query lower isalnum self terms) = []
          ↔ ∀ q, q ∈ terms →
                 Assignment1.normalize lower isalnum q ∈ dom (dictionary self)).
Proof.
  intros Hc Hne. unfold Assignment1.query.
  destruct (gather1_cases self (Assignment1.normalize lower isalnum <$> terms)
              [] Hc) as [(t & -> & Hin & Hnone)|(lists & -> & Hdom & Hall)].
  - apply list_elem_of_fmap in Hin as (q & -> & Hq).
    exists []. cbn [Assignment1.returned Assignment1.printed].
    split_and!; [done|constructor| |].
    + intros d. split; [by intros ?%elem_of_nil|]. intros Hall.
      specialize (Hall q Hq). unfold postings_of in Hall.
      rewrite Hnone in Hall. by apply elem_of_nil in Hall.
    + split; [done|]. intros Hall. specialize (Hall q Hq).
      apply elem_of_dom in Hall as [? ?]. congruence.
  - rewrite app_nil_l. cbn [Assignment1.returned Assignment1.printed].
    assert (lists ≠ []) as Hlists.
    { intros ->. apply Forall2_nil_inv_r in Hall.
      by apply fmap_nil_inv in Hall. }
    assert (Forall (StronglySorted str_lt) lists) as Hsorted.
    { apply Forall2_lists_R in Hall as Hs. eapply Forall_impl; [exact Hs|].
      intros l. apply Sorted_StronglySorted, _. }
    destruct (intersect_all_common false lists Hlists Hsorted)
      as (r & -> & Hr & Hin).
    exists r. split_and!; [done..| |].
    + intros d.
      rewrite Hin, (Forall2_elem_of_lists _ _ _ _ d Hall).
      by rewrite Forall_fmap, Forall_forall.
    + split; [|done]. intros _.
      by rewrite Forall_fmap, Forall_forall in Hdom.
Qed.

(** X10.  On an index that assignment 1 has built, [query] with at least one
    term raises nothing and returns a sorted list without duplicates; a
    document is in it exactly when it is on the chain of every term of the
    query; and nothing is printed exactly when every term is in the
    dictionary. *)
Theorem query1_answers (lower : str → str) (isalnum : ascii → bool)
    (rows : list (str * list str)) (self : InvertedIndex) (terms : list str) :
  Assignment1.index lower isalnum new_index rows = Ok self →
  terms ≠ [] →
  ∃ r, Assignment1.returned (Assignment1.query lower isalnum self terms) = Ok r
       ∧ Sorted str_lt r ∧ NoDup r
       ∧ (∀ d, d ∈ r ↔
               ∀ q, q ∈ terms →
                    d ∈ postings_of self (Assignment1.normalize lower isalnum q))
       ∧ (Assignment1.printed (Assignment1.query lower isalnum self terms) = []
          ↔ ∀ q, q ∈ terms →
                 Assignment1.normalize lower isalnum q ∈ dom (dictionary self)).
Proof.
  intros Hindex Hne.
  destruct new_index_consistent as [Hc0 Hp0].
  destruct (index1_consistent lower isalnum rows new_index Hc0 Hp0)
    as (self' & Hindex' & Hc & _).
  assert (self' = self) as -> by congruence.
  destruct (query1_spec lower isalnum self terms Hc Hne)
    as (r & ? & Hr & ? & ?).
  exists r. split_and!; [done| | |done..].
  - by apply StronglySorted_Sorted.
  - by apply StronglySorted_lt_NoDup.
Qed.

(** ** [normalize] *)

(** X11.  The two modes of [normalize] agree on a term without wildcard: if
    the query form of a term has no [*], it is the form under which the term
    is indexed.  Assignment 1 normalizes as assignment 2 indexes, the indexed
    form has alphanumeric characters only, and the query form has
    alphanumeric characters and [*] only. *)
Theorem normalize_modes (lower : str → str) (isalnum : ascii → bool)
    (term : str) :
  Assignment1.normalize lower isalnum term
  = Assignment2.normalize lower isalnum term false
  ∧ (star ∉ Assignment2.normalize lower isalnum term true →
     Assignment2.normalize lower isalnum term true
     = Assignment2.normalize lower isalnum term false)
  ∧ Forall (λ char, isalnum char = true)
           (Assignment2.normalize lower isalnum term false)
  ∧ Forall (λ char, isalnum char = true ∨ char = star)
           (Assignment2.normalize lower isalnum term true)
  ∧ (∀ char, char ∈ Assignment2.normalize lower isalnum term false →
             char ∈ Assignment2.normalize lower isalnum term true).
Proof.
  unfold Assignment1.normalize, Assignment2.normalize. split_and!.
  - done.
  - intros Hstar. apply filter_ext_elem. intros c Hc. split; [|by left].
    intros [?| ->]; [done|]. destruct Hstar.
    apply list_elem_of_filter. split; [by right|done].
  - apply Forall_forall. by intros c [? _]%list_elem_of_filter.
  - apply Forall_forall. by intros c [? _]%list_elem_of_filter.
  - intros c [? ?]%list_elem_of_filter. apply list_elem_of_filter.
    split; [by left|done].
Qed.

(** ** The two programs side by side *)

Lemma token_insertion_skip (tweet_id term t : str) :
  t ≠ [] →
  inserted_ids (token_insertion false tweet_id term) t
  = inserted_ids (token_insertion true tweet_id term) t.
Proof.
  intros Ht. destruct term as [|c term']; [|done]. simpl.
  rewrite inserted_ids_singleton. by rewrite decide_False.
Qed.

Lemma inserted_ids_bind {X} (f : X → list (str * str)) (xs : list X) t :
  inserted_ids (xs ≫= f) t = xs ≫= λ x, inserted_ids (f x) t.
Proof.
  induction xs as [|x xs IH]; [done|].
  by rewrite !bind_cons, inserted_ids_app, IH.
Qed.

Lemma insertions_skip normalize rows (t : str) :
  t ≠ [] →
  inserted_ids (insertions normalize false rows) t
  = inserted_ids (insertions normalize true rows) t.
Proof.
  intros Ht. unfold insertions. rewrite !inserted_ids_bind.
  apply list_bind_ext; [|done]. intros row. rewrite !inserted_ids_bind.
  apply list_bind_ext; [|done]. intros term. by apply token_insertion_skip.
Qed.

Lemma query_literal_normalize lower isalnum (q : str) :
  star ∉ Assignment2.normalize lower isalnum q true →
  Assignment2.normalize lower isalnum q true
  = Assignment1.normalize lower isalnum q.
Proof.
  intros Hstar. unfold Assignment1.normalize, Assignment2.normalize in *.
  apply filter_ext_elem. intros c Hc. split; [|by left].
  intros [?| ->]; [done|]. destruct Hstar.
  apply list_elem_of_filter. split; [by right|done].
Qed.

(** X12.  Built from the same rows, the two programs keep the same chain
    for every non-empty term, and they return the same answer to a query
    whose terms have no wildcard and do not normalize to the empty
    string. *)
Theorem assignments_agree (lower : str → str) (isalnum : ascii → bool)
    (rows : list (str * list str)) (self1 self2 : InvertedIndex)
    (terms : list str) :
  Assignment1.index lower isalnum new_index rows = Ok self1 →
  Assignment2.index lower isalnum new_index rows = Ok self2 →
  (∀ t, t ≠ [] → postings_of self1 t = postings_of self2 t)
  ∧ ((∀ q, q ∈ terms →
           star ∉ Assignment2.normalize lower isalnum q true
           ∧ Assignment2.normalize lower isalnum q true ≠ []) →
     Assignment1.returned (Assignment1.query lower isalnum self1 terms)
     = Assignment2.query lower isalnum self2 terms).
Proof.
  intros Hindex1 Hindex2.
  destruct (index1_tracks lower isalnum rows new_index [] new_index_tracks)
    as (s1 & Hs1 & (Hc1 & _ & _ & Hpo1 & _)).
  destruct (index2_tracks lower isalnum rows new_index [] new_index_tracks)
    as (s2 & Hs2 & (Hc2 & _ & _ & Hpo2 & _)).
  assert (s1 = self1) as -> by congruence.
  assert (s2 = self2) as -> by congruence.
  assert (∀ t, t ≠ [] → postings_of self1 t = postings_of self2 t) as Hsame.
  { intros t Ht. rewrite Hpo1, Hpo2. simpl. f_equal.
    by apply (insertions_skip (Assignment1.normalize lower isalnum)). }
  split; [done|]. intros Hterms.
  destruct terms as [|q0 terms0]; [done|].
  set (terms := q0 :: terms0) in *.
  destruct (query1_spec lower isalnum self1 terms Hc1) as (r1 & -> & Hr1 & Hin1 & _);
    [done|].
  destruct (query2_spec lower isalnum self2 terms Hc2) as (r2 & -> & Hr2 & Hin2);
    [done|].
  f_equal. apply StronglySorted_lt_ext; [done..|].
  intros d. rewrite Hin1, Hin2. split; intros Hall q Hq.
  - destruct (Hterms q Hq) as [Hstar Hne].
    exists (Assignment2.normalize lower isalnum q true). split.
    + unfold candidate_terms. rewrite decide_False by done. set_solver.
    + rewrite <- Hsame by done. rewrite query_literal_normalize by done.
      by apply Hall.
  - destruct (Hterms q Hq) as [Hstar Hne].
    destruct (Hall q Hq) as (c & Hcand & Hd).
    unfold candidate_terms in Hcand. rewrite decide_False in Hcand by done.
    apply elem_of_singleton in Hcand as ->.
    rewrite <- Hsame in Hd by done.
    by rewrite query_literal_normalize in Hd.
Qed.

(** ** Indexing in batches *)

Lemma for_each_app {S X} (body : S → X → result S) (xs ys : list X) (st : S) :
  for_each body (xs ++ ys) st
  = let! st' := for_each body xs st in for_each body ys st'.
Proof.
  revert st. induction xs as [|x xs IH]; intros st; [done|].
  simpl. destruct (body st x); [apply IH|done].
Qed.

(** X13.  Indexing rows in two calls of [index] on the same object leaves
    the index that one call on all the rows leaves, in both programs; no
    call raises, whatever the rows. *)
Theorem index_in_batches (lower : str → str) (isalnum : ascii → bool)
    (rows1 rows2 : list (str * list str)) :
  (∃ middle self,
     Assignment1.index lower isalnum new_index rows1 = Ok middle
     ∧ Assignment1.index lower isalnum middle rows2 = Ok self
     ∧ Assignment1.index lower isalnum new_index (rows1 ++ rows2) = Ok self)
  ∧ (∃ middle self,
       Assignment2.index lower isalnum new_index rows1 = Ok middle
       ∧ Assignment2.index lower isalnum middle rows2 = Ok self
       ∧ Assignment2.index lower isalnum new_index (rows1 ++ rows2) = Ok self).
Proof.
  split.
  - destruct new_index_consistent as [Hc Hp].
    destruct (index1_consistent lower isalnum rows1 new_index Hc Hp)
      as (middle & Hm & Hc' & Hp').
    destruct (index1_consistent lower isalnum rows2 middle Hc' Hp')
      as (self & Hs & _).
    exists middle, self. split_and!; [done..|].
    unfold Assignment1.index in *. by rewrite for_each_app, Hm.
  - destruct (index2_built lower isalnum rows1 new_index (new_index_built isalnum))
      as (middle & Hm & Hb).
    destruct (index2_built lower isalnum rows2 middle Hb) as (self & Hs & _).
    exists middle, self. split_and!; [done..|].
    unfold Assignment2.index in *. by rewrite for_each_app, Hm.
Qed.

(** ** Growth and errors of the postings update *)

Lemma grows_refl self : grows self self.
Proof. intros t. split; [done|]. intros td Htd. by exists td. Qed.

Lemma grows_trans a b c : grows a b → grows b c → grows a c.
Proof.
  intros Hab Hbc t. destruct (Hab t) as [Hs1 Hd1], (Hbc t) as [Hs2 Hd2].
  split; [by etrans|]. intros td Htd.
  destruct (Hd1 td Htd) as (td1 & Htd1 & Hp1 & Hn1).
  destruct (Hd2 td1 Htd1) as (td2 & Htd2 & Hp2 & Hn2).
  exists td2. split_and!; [done|congruence|lia].
Qed.

Lemma suffix_push_document chain d : chain `suffix_of` push_document chain d.
Proof.
  unfold push_document. destruct chain as [|x chain]; [apply suffix_nil|].
  destruct (decide (x = d)); [done|]. by apply suffix_cons_r.
Qed.

Lemma add_posting_grows self term tweet_id :
  counters_exact self → pointers_fresh self →
  ∃ self', add_posting self term tweet_id = Ok self'
    ∧ counters_exact self' ∧ pointers_fresh self' ∧ grows self self'.
Proof.
  intros Hc Hp.
  destruct (add_posting_consistent self term tweet_id Hc Hp)
    as (self' & Hadd & Hc' & Hp' & _ & _).
  exists self'. split_and!; [done..|].
  destruct (ensure_term_consistent self term Hc Hp) as [Hc1 Hp1].
  destruct (append_document_step (ensure_term self term) term tweet_id
              Hc1 Hp1 (ensure_term_lookup self term))
    as (self'' & Hrun & _ & Hpost).
  unfold add_posting in Hadd. assert (self'' = self') as -> by congruence.
  intros t. split.
  - rewrite Hpost, !postings_of_ensure_term by done.
    destruct (decide (t = term)) as [->|]; [|done].
    apply suffix_push_document.
  - intros td Htd.
    assert (dictionary (ensure_term self term) !! t = Some td) as Htd1.
    { unfold ensure_term.
      destruct (dictionary self !! term) eqn:E; [done|]. simpl.
      rewrite lookup_insert_ne; [done|]. intros ->. congruence. }
    clear Hadd. unfold append_document in Hrun.
    destruct (ensure_term_lookup self term) as [td0 Htd0].
    rewrite (subscript_Some _ _ _ Htd0) in Hrun. cbn [bind] in Hrun.
    destruct (Hc1 term td0 Htd0) as (head & Hh & _).
    rewrite (subscript_Some _ _ _ Hh) in Hrun. cbn [bind] in Hrun.
    match type of Hrun with
    | (if ?b then _ else _) = _ => destruct b
    end; simplify_eq; [|by exists td].
    simpl. destruct (decide (t = term)) as [->|Hne].
    + rewrite lookup_insert_eq. eexists. split; [done|]. simpl.
      assert (td0 = td) as -> by congruence. split; [done|lia].
    + rewrite lookup_insert_ne by done. by exists td.
Qed.

Lemma index1_grows lower isalnum rows self :
  counters_exact self → pointers_fresh self →
  ∃ self', Assignment1.index lower isalnum self rows = Ok self'
    ∧ grows self self'.
Proof.
  intros Hc Hp.
  pose (I := λ st, counters_exact st ∧ pointers_fresh st ∧ grows self st).
  destruct (for_each_invariant I (Assignment1.index_row lower isalnum) rows self)
    as (self' & ? & _ & _ & ?); [| |by exists self'].
  - clear. intros st [tweet_id words] Hst. unfold Assignment1.index_row.
    apply for_each_invariant; [|done].
    clear. intros st term (Hc & Hp & Hg).
    destruct (add_posting_grows st term tweet_id Hc Hp) as (st' & ? & ? & ? & ?).
    exists st'. split; [done|]. split_and!; [done..|]. by eapply grows_trans.
  - split_and!; [done..|]. apply grows_refl.
Qed.

Lemma index2_grows lower isalnum rows self :
  counters_exact self → pointers_fresh self →
  ∃ self', Assignment2.index lower isalnum self rows = Ok self'
    ∧ grows self self'.
Proof.
  intros Hc Hp.
  pose (I := λ st, counters_exact st ∧ pointers_fresh st ∧ grows self st).
  destruct (for_each_invariant I (Assignment2.index_row lower isalnum) rows self)
    as (self' & ? & _ & _ & ?); [| |by exists self'].
  - clear. intros st [tweet_id words] Hst. unfold Assignment2.index_row.
    apply for_each_invariant; [|done].
    clear. intros st term (Hc & Hp & Hg).
    destruct term as [|c term']; [by exists st|].
    unfold Assignment2.index_term.
    match goal with |- context [add_posting ?x _ _] => set (st1 := x) end.
    destruct (add_posting_grows st1 (c :: term') tweet_id Hc Hp)
      as (st' & ? & ? & ? & ?).
    exists st'. split; [done|]. split_and!; [done..|].
    eapply grows_trans; [exact Hg|]. done.
  - split_and!; [done..|]. apply grows_refl.
Qed.

(** X14.  [index] only adds: called on an index that an earlier call has
    built, it leaves every chain with the old chain as its tail end, and
    every old entry with its pointer and a counter that is not smaller. *)
Theorem index_only_grows (lower : str → str) (isalnum : ascii → bool)
    (rows1 rows2 : list (str * list str)) :
  (∃ middle self,
     Assignment1.index lower isalnum new_index rows1 = Ok middle
     ∧ Assignment1.index lower isalnum middle rows2 = Ok self
     ∧ grows middle self)
  ∧ (∃ middle self,
       Assignment2.index lower isalnum new_index rows1 = Ok middle
       ∧ Assignment2.index lower isalnum middle rows2 = Ok self
       ∧ grows middle self).
Proof.
  split.
  - destruct new_index_consistent as [Hc Hp].
    destruct (index1_consistent lower isalnum rows1 new_index Hc Hp)
      as (middle & Hm & Hc' & Hp').
    destruct (index1_grows lower isalnum rows2 middle Hc' Hp') as (self & ? & ?).
    by exists middle, self.
  - destruct (index2_built lower isalnum rows1 new_index (new_index_built isalnum))
      as (middle & Hm & Hc' & Hp' & _).
    destruct (index2_grows lower isalnum rows2 middle Hc' Hp') as (self & ? & ?).
    by exists middle, self.
Qed.

(** X15.  The postings update of one token, on any index object: it raises
    nothing but [KeyError], and raises it exactly when the entry of the term
    points to no chain; for a term without entry it never raises and leaves
    an entry with the old counter as pointer, the size 1 and the one-node
    chain of the document. *)
Theorem add_posting_errors (self : InvertedIndex) (term tweet_id : str) :
  (add_posting self term tweet_id = Raise KeyError ↔
   ∃ term_data, dictionary self !! term = Some term_data
                ∧ postings_lists self !! td_pointer term_data = None)
  ∧ (∀ e, add_posting self term tweet_id = Raise e → e = KeyError)
  ∧ (dictionary self !! term = None →
     ∃ self', add_posting self term tweet_id = Ok self'
       ∧ dictionary self' !! term
         = Some (mkTermData term 1 (posting_id_counter self))
       ∧ postings_lists self' !! posting_id_counter self
         = Some (Some (mkPosting tweet_id None))
       ∧ posting_id_counter self' = posting_id_counter self + 1).
Proof.
  unfold add_posting, ensure_term, append_document, subscript.
  destruct (dictionary self !! term) as [td|] eqn:Htd.
  - rewrite Htd. cbn [bind].
    destruct (postings_lists self !! td_pointer td) as [head|] eqn:Hh;
      cbn [bind].
    + split_and!.
      * split; [by destruct (match head with Some _ => _ | None => _ end)|].
        intros (td' & [= <-] & ?). congruence.
      * intros e. by destruct (match head with Some _ => _ | None => _ end).
      * done.
    + split_and!; [|by intros e [= <-]|done].
      split; [|done]. intros _. by exists td.
  - cbn [dictionary postings_lists]. rewrite !lookup_insert_eq. cbn [bind td_pointer].
    rewrite lookup_insert_eq. cbn [bind]. split_and!.
    + split; [done|]. by intros (td & [=] & _).
    + done.
    + intros _. eexists. split; [done|]. simpl.
      by rewrite !lookup_insert_eq.
Qed.
